(** * Smart WSN parking lot: radio addressing, transmit protocol, role state

    A shallow embedding of the sensor node (sensornode.cpp), the message
    header (message.cpp) and the base station registry (basestation.hpp),
    with the properties of the radio coordination protocol proved over it.

    Conventions.  A [uint8_t] or [uint32_t] is a [Z] together with the
    wrap-around that the C++ conversion performs, written out where the
    source converts.  The transceiver (RF24), the range sensor (VL6180X)
    and the Arduino core ([random], [delay]) are external collaborators:
    each primitive is modelled by its effect on an explicit world state,
    and everything they decide on their own (carrier present, frame
    acknowledged, raw pseudo-random number) is read from an environment. *)

From stdpp Require Import base numbers list gmap.

Local Open Scope Z_scope.

(** ** Machine integers *)

Definition uint8 (x : Z) : Z := x mod 256.
Definition uint32 (x : Z) : Z := x mod 2 ^ 32.

Definition is_uint8 (x : Z) : Prop := 0 <= x < 256.

(** Every [uint8_t] value, in increasing order. *)
Definition all_uint8 : list Z := Z.of_nat <$> seq 0 256.

(** ** Constants *)

Module Config.

(* sensornode.cpp *)
Definition BASE_STATION_ID : Z := 0.
Definition BASE_STATION_ADDRESS : Z := 0xBAD1DEA5.
Definition RF24_CHANNEL_SPACING : Z := 5.
Definition RF24_READING_PIPE : Z := 1.
Definition MAX_SEND_ATTEMPTS : Z := 15.
Definition FAILED_SEND_DELAY : Z := 15.
Definition CHANNEL_CHECKS_MAX : nat := 10.
Definition CHANNEL_BUSY_DELAY_MIN_MS : Z := 25.
Definition CHANNEL_BUSY_DELAY_MAX_MS : Z := 100.

(* basestation.hpp *)
Definition SENSOR_NODE_NUM : Z := 10.
Definition RF24_ADDRESS_WIDTH : Z := 4.

(** The transceiver's legal channels are 0 to 125 (basestation.hpp,
    documentation of [calculate_radio_channel]). *)
Definition RF24_CHANNEL_MAX : Z := 125.

End Config.
Import Config.

(** ** Address and channel derivation (sensornode.cpp) *)

(** [memcpy(&address, address_bytes, sizeof(address))] on the little-endian
    target: byte [k] of the array becomes bits [8k .. 8k+7] of the word. *)
Fixpoint memcpy_le (bytes : list Z) : Z :=
  match bytes with
  | [] => 0
  | b :: rest => Z.lor b (Z.shiftl (memcpy_le rest) 8)
  end.

(** The same copy on a big-endian target. *)
Definition memcpy_be (bytes : list Z) : Z := memcpy_le (rev bytes).

(** Byte [k] of a 32-bit address. *)
Definition address_byte (address k : Z) : Z :=
  Z.land (Z.shiftr address (8 * k)) 0xFF.

Definition calculate_radio_address (node_id : Z) : Z :=
  if BASE_STATION_ID =? node_id then BASE_STATION_ADDRESS
  else
    let address_bytes := [node_id; node_id; node_id; node_id] in
    let address := memcpy_le address_bytes in
    address.

(** The general byte-repetition formula on its own (the [else] branch). *)
Definition repeat_byte_address (node_id : Z) : Z :=
  memcpy_le [node_id; node_id; node_id; node_id].

(** The product is computed in [int] and converted to the [uint8_t]
    return type. *)
Definition calculate_radio_channel (node_id : Z) : Z :=
  uint8 (node_id * RF24_CHANNEL_SPACING).

(** Sensor node ids are [1 .. SENSOR_NODE_NUM]. *)
Definition valid_sensor_id (id : Z) : Prop := 1 <= id <= SENSOR_NODE_NUM.

(** ** Messages (message.cpp) *)

(** Modelled from the spec: message.hpp is missing; the spec defines a
    single message kind, the status update. *)
Inductive message_t : Type :=
  | UPDATE.

Record Message : Type := mkMessage {
  rx_id : Z;
  tx_id : Z;
  msg_type : message_t
}.

(** [Message::Message]: the three fields are assigned as given; the ids are
    [uint8_t] parameters. *)
Definition Message_new (rx tx : Z) (ty : message_t) : Message :=
  {| rx_id := uint8 rx; tx_id := uint8 tx; msg_type := ty |}.

Definition get_rx_id (m : Message) : Z := rx_id m.
Definition get_tx_id (m : Message) : Z := tx_id m.

(** [Message::get_type] has the body [return this->get_type();].  A call is
    modelled with fuel: one unit is spent per activation, and the body does
    nothing but make the next call.  [None] means that the fuel ran out
    before any activation returned. *)
Fixpoint get_type (fuel : nat) (m : Message) : option message_t :=
  match fuel with
  | O => None
  | S fuel' => get_type fuel' m
  end.

(** The same method as a big-step evaluation relation: the only rule says
    that a call returns [v] when the call made by its body returns [v]. *)
Inductive get_type_returns : Message -> message_t -> Prop :=
  | get_type_call m v : get_type_returns m v -> get_type_returns m v.

(** What the accessor is meant to do, as its two siblings do. *)
Definition get_type_intended (m : Message) : message_t := msg_type m.

(** Modelled from the spec: updatemessage.hpp is missing.  An update
    message is a message of kind [UPDATE] with the reporting node's id and
    one boolean payload, built as the call in
    [SensorNode::transmit_update(uint8_t)] builds it. *)
Record UpdateMessage : Type := mkUpdateMessage {
  header : Message;
  um_node_id : Z;
  is_vacant : bool
}.

Definition UpdateMessage_new (rx tx node : Z) (vacant : bool) : UpdateMessage :=
  {| header := Message_new rx tx UPDATE;
     um_node_id := uint8 node;
     is_vacant := vacant |}.

(** ** The world outside the node *)

(** The session configuration of the transceiver and its receive queue. *)
Record RF24 : Type := mkRF24 {
  rf_channel : Z;
  rf_reading_pipes : gmap Z Z;      (* open reading pipes: index -> address *)
  rf_writing_pipe : option Z;
  rf_listening : bool;
  rf_rx_fifo : list (list Z)        (* payloads received and not yet read *)
}.

(** The settings that [SensorNode::init] applies to the transceiver. *)
Inductive setting : Type :=
  | EnableDynamicPayloads
  | SetAutoAck (enable : bool)
  | SetRetries (delay count : Z)
  | SetAddressWidth (width : Z)
  | SetPALevelMax.

(** Calls made on the collaborators, in the order they are made. *)
Inductive event : Type :=
  | EvSensorBegin (ok : bool)
  | EvRadioBegin (ok : bool)
  | EvConfigure (s : setting)
  | EvSetChannel (ch : Z)
  | EvOpenReadingPipe (pipe address : Z)
  | EvCloseReadingPipe (pipe : Z)
  | EvOpenWritingPipe (address : Z)
  | EvStartListening
  | EvStopListening
  | EvTestCarrier (carrier : bool)
  | EvRandom (howsmall howbig result : Z)
  | EvDelay (ms : Z)
  | EvWrite (payload : UpdateMessage) (acked : bool)
  | EvAvailable (available : bool)
  | EvRead (len : Z).

(** What the outside decides: whether the sensor and the radio start, the
    carrier detected by the k-th probe, the raw output of the k-th call of
    the C library's [random()], and whether the k-th transmitted frame is
    acknowledged. *)
Record Env : Type := mkEnv {
  sensor_begins : bool;
  radio_begins : bool;
  carrier_at : nat -> bool;
  raw_random_at : nat -> Z;
  acked_at : nat -> bool
}.

Record World : Type := mkWorld {
  radio : RF24;
  trace : list event;
  probes : nat;       (* carrier probes made so far *)
  draws : nat;        (* random numbers drawn so far *)
  frames : nat        (* frames written so far *)
}.

Definition set_radio (r : RF24) (w : World) : World :=
  {| radio := r; trace := trace w; probes := probes w;
     draws := draws w; frames := frames w |}.

Definition log (e : event) (w : World) : World :=
  {| radio := radio w; trace := trace w ++ [e]; probes := probes w;
     draws := draws w; frames := frames w |}.

(** ** A reader and state monad for code that drives the collaborators *)

Definition M (A : Type) : Type := Env -> World -> A * World.

Definition ret {A} (a : A) : M A := fun _ w => (a, w).

Definition bind {A B} (m : M A) (k : A -> M B) : M B :=
  fun env w => let '(a, w') := m env w in k a env w'.

Declare Scope radio_scope.
Delimit Scope radio_scope with radio.
Notation "x <- m ;; k" := (bind m (fun x => k))
  (at level 100, m at next level, right associativity) : radio_scope.
Notation "m ;; k" := (bind m (fun _ => k))
  (at level 100, right associativity) : radio_scope.
Local Open Scope radio_scope.

(** The events a computation adds to the trace. *)
Definition emitted {A} (m : M A) (env : Env) (w : World) : list event :=
  drop (length (trace w)) (trace (snd (m env w))).

(** ** The transceiver driver *)

Module Radio.

(** [begin]: true when the transceiver answers. *)
Definition begin : M bool := fun env w =>
  (radio_begins env, log (EvRadioBegin (radio_begins env)) w).

(** The settings of [init] that do not touch the session configuration. *)
Definition configure (s : setting) : M unit := fun _ w =>
  (tt, log (EvConfigure s) w).

Definition setChannel (ch : Z) : M unit := fun _ w =>
  let r := radio w in
  (tt, log (EvSetChannel ch)
         (set_radio {| rf_channel := ch;
                       rf_reading_pipes := rf_reading_pipes r;
                       rf_writing_pipe := rf_writing_pipe r;
                       rf_listening := rf_listening r;
                       rf_rx_fifo := rf_rx_fifo r |} w)).

Definition openReadingPipe (pipe address : Z) : M unit := fun _ w =>
  let r := radio w in
  (tt, log (EvOpenReadingPipe pipe address)
         (set_radio {| rf_channel := rf_channel r;
                       rf_reading_pipes := <[pipe := address]> (rf_reading_pipes r);
                       rf_writing_pipe := rf_writing_pipe r;
                       rf_listening := rf_listening r;
                       rf_rx_fifo := rf_rx_fifo r |} w)).

Definition closeReadingPipe (pipe : Z) : M unit := fun _ w =>
  let r := radio w in
  (tt, log (EvCloseReadingPipe pipe)
         (set_radio {| rf_channel := rf_channel r;
                       rf_reading_pipes := delete pipe (rf_reading_pipes r);
                       rf_writing_pipe := rf_writing_pipe r;
                       rf_listening := rf_listening r;
                       rf_rx_fifo := rf_rx_fifo r |} w)).

Definition openWritingPipe (address : Z) : M unit := fun _ w =>
  let r := radio w in
  (tt, log (EvOpenWritingPipe address)
         (set_radio {| rf_channel := rf_channel r;
                       rf_reading_pipes := rf_reading_pipes r;
                       rf_writing_pipe := Some address;
                       rf_listening := rf_listening r;
                       rf_rx_fifo := rf_rx_fifo r |} w)).

Definition set_listening (b : bool) (r : RF24) : RF24 :=
  {| rf_channel := rf_channel r;
     rf_reading_pipes := rf_reading_pipes r;
     rf_writing_pipe := rf_writing_pipe r;
     rf_listening := b;
     rf_rx_fifo := rf_rx_fifo r |}.

Definition startListening : M unit := fun _ w =>
  (tt, log EvStartListening (set_radio (set_listening true (radio w)) w)).

Definition stopListening : M unit := fun _ w =>
  (tt, log EvStopListening (set_radio (set_listening false (radio w)) w)).

(** [testCarrier]: true when a carrier is detected on the current channel. *)
Definition testCarrier : M bool := fun env w =>
  let c := carrier_at env (probes w) in
  (c, log (EvTestCarrier c)
        {| radio := radio w; trace := trace w; probes := S (probes w);
           draws := draws w; frames := frames w |}).

(** [write]: blocking send with acknowledgment; the configuration of the
    radio is not changed by it. *)
Definition write (payload : UpdateMessage) : M bool := fun env w =>
  let ok := acked_at env (frames w) in
  (ok, log (EvWrite payload ok)
         {| radio := radio w; trace := trace w; probes := probes w;
            draws := draws w; frames := S (frames w) |}).

(** [available]: true when a received payload waits in the queue. *)
Definition available : M bool := fun _ w =>
  let b := match rf_rx_fifo (radio w) with [] => false | _ :: _ => true end in
  (b, log (EvAvailable b) w).

(** [read(buf, len)]: the oldest payload leaves the queue and its first
    [len] bytes overwrite the start of the buffer. *)
Definition copy_into (payload : list Z) (len : Z) (buffer : list Z) : list Z :=
  let n := Nat.min (Z.to_nat len) (Nat.min (length payload) (length buffer)) in
  take n payload ++ drop n buffer.

Definition read (buffer : list Z) (len : Z) : M (list Z) := fun _ w =>
  let r := radio w in
  let payload := hd [] (rf_rx_fifo r) in
  (copy_into payload len buffer,
   log (EvRead len)
     (set_radio {| rf_channel := rf_channel r;
                   rf_reading_pipes := rf_reading_pipes r;
                   rf_writing_pipe := rf_writing_pipe r;
                   rf_listening := rf_listening r;
                   rf_rx_fifo := tl (rf_rx_fifo r) |} w)).

End Radio.

(** ** The Arduino core *)

Module Arduino.

(** The C library's [random()] returns a value in [0 .. RANDOM_MAX], with
    [RANDOM_MAX = 0x7FFFFFFF]. *)
Definition RANDOM_MAX : Z := 0x7FFFFFFF.

Definition libc_random (raw : Z) : Z := raw mod (RANDOM_MAX + 1).

(** [long random(long howbig)]: zero when [howbig] is zero, otherwise
    [random() % howbig]. *)
Definition random_upto (howbig raw : Z) : Z :=
  if howbig =? 0 then 0 else Z.rem (libc_random raw) howbig.

(** [long random(long howsmall, long howbig)]: [howsmall] when the range is
    empty, otherwise [random(howbig - howsmall) + howsmall]; the upper bound
    is exclusive. *)
Definition random_between (howsmall howbig raw : Z) : Z :=
  if howsmall >=? howbig then howsmall
  else
    let diff := howbig - howsmall in
    random_upto diff raw + howsmall.

Definition random (howsmall howbig : Z) : M Z := fun env w =>
  let v := random_between howsmall howbig (raw_random_at env (draws w)) in
  (v, log (EvRandom howsmall howbig v)
        {| radio := radio w; trace := trace w; probes := probes w;
           draws := S (draws w); frames := frames w |}).

Definition delay (ms : Z) : M unit := fun _ w => (tt, log (EvDelay ms) w).

End Arduino.

(** ** The sensor node (sensornode.cpp) *)

(** Range status codes of the VL6180X driver that the node tells apart. *)
Definition VL6180X_ERROR_NONE : Z := 0.
Definition VL6180X_ERROR_NOCONVERGE : Z := 7.

(** Modelled from the spec: sensornode.hpp is missing; the occupancy status
    is a tri-state, unknown until the first conclusive reading. *)
Inductive tof_sensor_status_t : Type :=
  | VACANT
  | OCCUPIED
  | UNKNOWN.

Definition tof_sensor_status_eqb (a b : tof_sensor_status_t) : bool :=
  match a, b with
  | VACANT, VACANT | OCCUPIED, OCCUPIED | UNKNOWN, UNKNOWN => true
  | _, _ => false
  end.

Record SensorNode : Type := mkSensorNode {
  node_id : Z;
  radio_address : Z;
  radio_channel : Z;
  sensor_status : tof_sensor_status_t
}.

(** [SensorNode::SensorNode]: the constructor assigns the id and the
    address and channel derived from it.  It does not assign the status,
    which keeps the initial value of its declaration.
    Modelled from the spec: sensornode.hpp, which declares the field, is
    missing; the status is initially unknown. *)
Definition SensorNode_new (id : Z) : SensorNode :=
  let id := uint8 id in
  {| node_id := id;
     radio_address := calculate_radio_address id;
     radio_channel := calculate_radio_channel id;
     sensor_status := UNKNOWN |}.

Definition set_sensor_status (s : tof_sensor_status_t) (this : SensorNode) : SensorNode :=
  {| node_id := node_id this;
     radio_address := radio_address this;
     radio_channel := radio_channel this;
     sensor_status := s |}.

Definition get_sensor_status (this : SensorNode) : tof_sensor_status_t :=
  sensor_status this.

(** [sensor.begin()]: true when the range sensor answers. *)
Definition sensor_begin : M bool := fun env w =>
  (sensor_begins env, log (EvSensorBegin (sensor_begins env)) w).

(** [SensorNode::init] *)
Definition init (this : SensorNode) : M bool :=
  sensor_ok <- sensor_begin ;;
  if negb sensor_ok then ret false
  else
    radio_ok <- Radio.begin ;;
    if negb radio_ok then ret false
    else
      Radio.configure EnableDynamicPayloads ;;
      Radio.configure (SetAutoAck true) ;;
      Radio.configure (SetRetries FAILED_SEND_DELAY MAX_SEND_ATTEMPTS) ;;
      Radio.configure (SetAddressWidth RF24_ADDRESS_WIDTH) ;;
      Radio.configure SetPALevelMax ;;
      Radio.setChannel (radio_channel this) ;;
      Radio.openReadingPipe RF24_READING_PIPE (radio_address this) ;;
      Radio.startListening ;;
      ret true.

(** [SensorNode::is_sensor_status_changed], given the range status that the
    sensor reports for this reading.  Returns the result and the node as
    the call leaves it. *)
Definition is_sensor_status_changed (status : Z) (this : SensorNode)
  : bool * SensorNode :=
  if VL6180X_ERROR_NONE =? status then
    if tof_sensor_status_eqb OCCUPIED (sensor_status this) then (false, this)
    else (true, set_sensor_status OCCUPIED this)
  else if VL6180X_ERROR_NOCONVERGE =? status then
    if tof_sensor_status_eqb VACANT (sensor_status this) then (false, this)
    else (true, set_sensor_status VACANT this)
  else (false, this).

(** The mapping of raw statuses as the specification words it: no error is
    occupied, no convergence is vacant, anything else maps to nothing. *)
Definition mapped_status (status : Z) : option tof_sensor_status_t :=
  if status =? VL6180X_ERROR_NONE then Some OCCUPIED
  else if status =? VL6180X_ERROR_NOCONVERGE then Some VACANT
  else None.

(** The carrier-sense loop of [transmit_update]:
    [for (i = 0; i < CHANNEL_CHECKS_MAX; i++)], with [remaining] the number
    of iterations still to run.  The result is [is_channel_open] as the
    loop leaves it: true after a [break], false when the bound is reached
    (each completed iteration has assigned false to it, and it starts
    false). *)
Fixpoint carrier_sense_loop (remaining : nat) : M bool :=
  match remaining with
  | O => ret false
  | S remaining' =>
      carrier <- Radio.testCarrier ;;
      let is_channel_open := negb carrier in
      if is_channel_open then ret true
      else
        r <- Arduino.random CHANNEL_BUSY_DELAY_MIN_MS CHANNEL_BUSY_DELAY_MAX_MS ;;
        let channel_delay := uint32 r in
        Arduino.delay channel_delay ;;
        carrier_sense_loop remaining'
  end.

(** [SensorNode::transmit_update(UpdateMessage* msg)].  The send buffer is
    a byte copy of [*msg]; the layout of the bytes is not modelled, the
    copy is the message value. *)
Definition transmit_update (this : SensorNode) (msg : UpdateMessage) : M bool :=
  let rx_id := get_rx_id (header msg) in
  let rx_address := calculate_radio_address rx_id in
  let rx_channel := calculate_radio_channel rx_id in
  Radio.setChannel rx_channel ;;
  is_channel_open <- carrier_sense_loop CHANNEL_CHECKS_MAX ;;
  if negb is_channel_open then
    Radio.setChannel (radio_channel this) ;;
    Radio.openReadingPipe RF24_READING_PIPE (radio_address this) ;;
    ret false
  else
    Radio.stopListening ;;
    Radio.closeReadingPipe RF24_READING_PIPE ;;
    Radio.openWritingPipe rx_address ;;
    let buffer := msg in
    is_sent <- Radio.write buffer ;;
    Radio.setChannel (radio_channel this) ;;
    Radio.openReadingPipe RF24_READING_PIPE (radio_address this) ;;
    Radio.startListening ;;
    ret is_sent.

(** [SensorNode::transmit_update(uint8_t rx_node_id)] *)
Definition transmit_update_to (this : SensorNode) (rx_node_id : Z) : M bool :=
  let is_vacant := tof_sensor_status_eqb (sensor_status this) VACANT in
  let msg := UpdateMessage_new rx_node_id (node_id this) (node_id this) is_vacant in
  transmit_update this msg.

(** [SensorNode::is_message] *)
Definition is_message : M bool := Radio.available.

(** [SensorNode::read_message]: returns the result and the buffer as the
    call leaves it. *)
Definition read_message (buffer : list Z) (len : Z) : M (bool * list Z) :=
  available <- Radio.available ;;
  if negb available then ret (false, buffer)
  else
    buffer' <- Radio.read buffer len ;;
    ret (true, buffer').

(** The resting configuration of a node's radio: tuned to the node's own
    channel, the reading pipe open on the node's own address, listening. *)
Definition own_channel (this : SensorNode) (r : RF24) : Prop :=
  rf_channel r = radio_channel this.

Definition own_pipe_open (this : SensorNode) (r : RF24) : Prop :=
  rf_reading_pipes r !! RF24_READING_PIPE = Some (radio_address this).

Definition at_rest (this : SensorNode) (r : RF24) : Prop :=
  own_channel this r /\ own_pipe_open this r /\ rf_listening r = true.

Definition is_write (e : event) : bool :=
  match e with EvWrite _ _ => true | _ => false end.

Definition is_read (e : event) : bool :=
  match e with EvRead _ => true | _ => false end.

(** The delays taken, in order. *)
Definition delays (evs : list event) : list Z :=
  omap (fun e => match e with EvDelay ms => Some ms | _ => None end) evs.

(** A series of update calls, each made in the world the previous one
    left; the results are collected in order. *)
Fixpoint transmit_updates (this : SensorNode) (msgs : list UpdateMessage)
  : M (list bool) :=
  match msgs with
  | [] => ret []
  | msg :: rest =>
      is_sent <- transmit_update this msg ;;
      results <- transmit_updates this rest ;;
      ret (is_sent :: results)
  end.

(** The next [n] carrier probes all find the channel busy. *)
Definition all_busy (env : Env) (w : World) (n : nat) : Prop :=
  forall k, (k < n)%nat -> carrier_at env (probes w + k) = true.

(** The calls that the carrier-sense loop makes: probes, draws and delays. *)
Definition is_loop_event (e : event) : bool :=
  match e with
  | EvTestCarrier _ | EvRandom _ _ _ | EvDelay _ => true
  | _ => false
  end.

(** Whether one of the [n] probes numbered from [first] finds the channel
    idle. *)
Fixpoint finds_idle (env : Env) (first n : nat) : bool :=
  match n with
  | O => false
  | S n' => negb (carrier_at env first) || finds_idle env (S first) n'
  end.

(** ** Concrete nodes, worlds and environments *)

Module Scenario.

(** Sensor node 2 and its update for the base station. *)
Definition node2 : SensorNode := SensorNode_new 2.

Definition update2 : UpdateMessage := UpdateMessage_new BASE_STATION_ID 2 2 true.

(** A radio that has not been started: no pipe open, not listening. *)
Definition radio_not_started : RF24 :=
  {| rf_channel := 0; rf_reading_pipes := ∅; rf_writing_pipe := None;
     rf_listening := false; rf_rx_fifo := [] |}.

Definition world_of (r : RF24) : World :=
  {| radio := r; trace := []; probes := 0; draws := 0; frames := 0 |}.

(** The radio of a node at rest with nothing received. *)
Definition radio_initialised (this : SensorNode) : RF24 :=
  {| rf_channel := radio_channel this;
     rf_reading_pipes := {[ RF24_READING_PIPE := radio_address this ]};
     rf_writing_pipe := None;
     rf_listening := true; rf_rx_fifo := [] |}.

(** Every probe finds a carrier; the raw random numbers are [raw]. *)
Definition env_busy (raw : Z) : Env :=
  {| sensor_begins := true; radio_begins := true;
     carrier_at := fun _ => true; raw_random_at := fun _ => raw;
     acked_at := fun _ => true |}.

(** No probe finds a carrier; frames are acknowledged or not as [acked]. *)
Definition env_idle (acked : bool) : Env :=
  {| sensor_begins := true; radio_begins := true;
     carrier_at := fun _ => false; raw_random_at := fun _ => 0;
     acked_at := fun _ => acked |}.

(** The range sensor does not start and every probe finds a carrier. *)
Definition env_sensor_dead : Env :=
  {| sensor_begins := false; radio_begins := true;
     carrier_at := fun _ => true; raw_random_at := fun _ => 0;
     acked_at := fun _ => true |}.

(** A radio at rest with one received payload waiting. *)
Definition radio_with_payload (this : SensorNode) (payload : list Z) : RF24 :=
  {| rf_channel := radio_channel this;
     rf_reading_pipes := {[ RF24_READING_PIPE := radio_address this ]};
     rf_writing_pipe := None;
     rf_listening := true; rf_rx_fifo := [payload] |}.

End Scenario.

(** ** The base station (basestation.hpp) *)

Module BaseStation.

(** [bool node_status[SENSOR_NODE_NUM] = {0};] *)
Definition node_status_init : list bool := replicate (Z.to_nat SENSOR_NODE_NUM) false.

(** An array access with the bounds written out: [None] stands for an
    access outside the array. *)
Definition array_get (a : list bool) (i : Z) : option bool :=
  if (0 <=? i) && (i <? Z.of_nat (length a)) then a !! Z.to_nat i else None.

Definition array_set (a : list bool) (i : Z) (v : bool) : option (list bool) :=
  if (0 <=? i) && (i <? Z.of_nat (length a)) then Some (<[Z.to_nat i := v]> a)
  else None.

(** Modelled from the spec: basestation.cpp is missing.  An id is valid
    when it lies in [1, N]. *)
Definition is_valid_sensor_node (node_id : Z) : bool :=
  (1 <=? node_id) && (node_id <=? SENSOR_NODE_NUM).

(** Modelled from the spec: basestation.cpp is missing.  The id is
    validated, then the entry of the node is overwritten; the result tells
    whether the write occurred.  The entry of node [id] is element [id - 1]
    of the array of [N] entries.  The outer [option] is [None] when an
    access leaves the array. *)
Definition update_node_status (node_status : list bool) (node_id : Z) (is_vacant : bool)
  : option (bool * list bool) :=
  if negb (is_valid_sensor_node node_id) then Some (false, node_status)
  else
    match array_set node_status (node_id - 1) is_vacant with
    | Some node_status' => Some (true, node_status')
    | None => None
    end.

(** Modelled from the spec: basestation.cpp is missing.  The id is
    validated, then the stored flag is returned; an invalid id gives the
    sentinel [false]. *)
Definition get_node_status (node_status : list bool) (node_id : Z) : option bool :=
  if negb (is_valid_sensor_node node_id) then Some false
  else array_get node_status (node_id - 1).

(** Modelled from the spec: basestation.cpp is missing.  The registry is
    scanned from the first entry to the last and the entries marked vacant
    are counted in a [uint8_t]. *)
Fixpoint num_vacant_from (node_status : list bool) (count : Z) : Z :=
  match node_status with
  | [] => count
  | v :: rest => num_vacant_from rest (if v then uint8 (count + 1) else count)
  end.

Definition num_vacant (node_status : list bool) : Z := num_vacant_from node_status 0.

(** A sequence of update calls, each on the registry the previous one
    left; [None] when some call leaves the array. *)
Fixpoint run_updates (node_status : list bool) (calls : list (Z * bool))
  : option (list bool) :=
  match calls with
  | [] => Some node_status
  | (id, v) :: rest =>
      match update_node_status node_status id v with
      | Some (_, node_status') => run_updates node_status' rest
      | None => None
      end
  end.

(** The flag that the last valid call for [id] in the sequence wrote, if
    there is one. *)
Fixpoint last_write (id : Z) (calls : list (Z * bool)) : option bool :=
  match calls with
  | [] => None
  | (id', v) :: rest =>
      match last_write id rest with
      | Some v' => Some v'
      | None => if (id' =? id) && is_valid_sensor_node id' then Some v else None
      end
  end.

(** The sensor node ids, [1 .. N]. *)
Definition sensor_ids : list Z := seqZ 1 SENSOR_NODE_NUM.

(** The number of entries of a registry that are marked vacant. *)
Definition vacant_entries (node_status : list bool) : nat :=
  length (filter (eq true) node_status).

(** The sensor nodes that a sequence of calls leaves marked vacant when
    it starts from the initial registry: those whose last valid update
    wrote vacant. *)
Definition vacant_ids (calls : list (Z * bool)) : list Z :=
  filter (fun id => last_write id calls = Some true) sensor_ids.

(** The registry has its [N] entries. *)
Definition well_sized (node_status : list bool) : Prop :=
  length node_status = Z.to_nat SENSOR_NODE_NUM.

End BaseStation.

(** ** Further operations and uses of the sensor node *)

(** [SensorNode::get_id] *)
Definition get_id (this : SensorNode) : Z := node_id this.

(** The calls of the two exit paths of [transmit_update]: the one taken
    when the channel stayed busy, and the one taken after a probe found
    it idle, for a frame that is acknowledged or not. *)
Definition abort_calls (this : SensorNode) : list event :=
  [EvSetChannel (radio_channel this);
   EvOpenReadingPipe RF24_READING_PIPE (radio_address this)].

Definition send_calls (this : SensorNode) (msg : UpdateMessage) (acked : bool)
  : list event :=
  [EvStopListening;
   EvCloseReadingPipe RF24_READING_PIPE;
   EvOpenWritingPipe (calculate_radio_address (get_rx_id (header msg)));
   EvWrite msg acked;
   EvSetChannel (radio_channel this);
   EvOpenReadingPipe RF24_READING_PIPE (radio_address this);
   EvStartListening].


(** The frames handed to [radio.write], in order. *)
Definition written (evs : list event) : list UpdateMessage :=
  omap (fun e => match e with EvWrite payload _ => Some payload | _ => None end) evs.

(** The node polled once for each range status of a list, in order; the
    results of the calls and the node as the last call leaves it. *)
Fixpoint poll_statuses (statuses : list Z) (this : SensorNode)
  : list bool * SensorNode :=
  match statuses with
  | [] => ([], this)
  | status :: rest =>
      let '(changed, this') := is_sensor_status_changed status this in
      let '(results, this'') := poll_statuses rest this' in
      (changed :: results, this'')
  end.

(** The status that the last conclusive reading of a list maps to. *)
Fixpoint last_conclusive (statuses : list Z) : option tof_sensor_status_t :=
  match statuses with
  | [] => None
  | status :: rest =>
      match last_conclusive rest with
      | Some s => Some s
      | None => mapped_status status
      end
  end.

(** A call of one of the public operations of an initialised node. *)
Inductive call : Type :=
  | CallPoll (status : Z)
  | CallTransmit (msg : UpdateMessage)
  | CallTransmitTo (rx_node_id : Z)
  | CallIsMessage
  | CallReadMessage (buffer : list Z) (len : Z).

Definition run_call (this : SensorNode) (c : call) : M SensorNode :=
  match c with
  | CallPoll status => ret (snd (is_sensor_status_changed status this))
  | CallTransmit msg => transmit_update this msg ;; ret this
  | CallTransmitTo rx_node_id => transmit_update_to this rx_node_id ;; ret this
  | CallIsMessage => is_message ;; ret this
  | CallReadMessage buffer len => read_message buffer len ;; ret this
  end.

(** A series of calls, each made on the node and in the world that the
    previous one left. *)
Fixpoint run_calls (this : SensorNode) (calls : list call) : M SensorNode :=
  match calls with
  | [] => ret this
  | c :: rest => this' <- run_call this c ;; run_calls this' rest
  end.

Module Scenario2.

(** The channel is busy for the first [k] probes and idle from then on;
    the raw random numbers are [raw]; frames are acknowledged. *)
Definition env_idle_after (k : nat) (raw : Z) : Env :=
  {| sensor_begins := true; radio_begins := true;
     carrier_at := fun i => (i <? k)%nat; raw_random_at := fun _ => raw;
     acked_at := fun _ => true |}.

(** The sensor starts and the radio does not. *)
Definition env_radio_dead : Env :=
  {| sensor_begins := true; radio_begins := false;
     carrier_at := fun _ => false; raw_random_at := fun _ => 0;
     acked_at := fun _ => true |}.

(** Node 2 with the space known to be occupied. *)
Definition node2_occupied : SensorNode :=
  set_sensor_status OCCUPIED Scenario.node2.

(** Node 2 at rest after a successful start. *)
Definition world_started : World :=
  Scenario.world_of (Scenario.radio_initialised Scenario.node2).

End Scenario2.

(** * Properties *)

(** ** Machine integers *)

Lemma elem_of_all_uint8 (x : Z) : is_uint8 x -> x ∈ all_uint8.
Proof.
  intros [Hlo Hhi]. unfold all_uint8.
  apply list_elem_of_fmap. exists (Z.to_nat x). split; [lia|].
  apply elem_of_seq. lia.
Qed.

(** A boolean property checked on the 256 values holds of every [uint8_t]. *)
Lemma uint8_cases (P : Z -> bool) :
  forallb P all_uint8 = true -> forall x, is_uint8 x -> P x = true.
Proof.
  intros Hall x Hx. rewrite forallb_forall in Hall.
  apply Hall, list_elem_of_In, elem_of_all_uint8, Hx.
Qed.

Lemma uint8_small (x : Z) : is_uint8 x -> uint8 x = x.
Proof. intros Hx. unfold uint8. apply Z.mod_small. exact Hx. Qed.

Lemma uint8_is_uint8 (x : Z) : is_uint8 (uint8 x).
Proof. unfold is_uint8, uint8. apply Z.mod_pos_bound. lia. Qed.

(** ** Address derivation *)

Lemma calculate_radio_address_base :
  calculate_radio_address BASE_STATION_ID = BASE_STATION_ADDRESS.
Proof. reflexivity. Qed.

Lemma calculate_radio_address_general (id : Z) :
  id <> BASE_STATION_ID -> calculate_radio_address id = repeat_byte_address id.
Proof.
  intros Hne. unfold calculate_radio_address, repeat_byte_address.
  destruct (Z.eqb_spec BASE_STATION_ID id) as [Heq|_]; [congruence|reflexivity].
Qed.

(** The repeated bytes add up to [id * 0x01010101]. *)
Lemma repeat_byte_address_mul (id : Z) :
  is_uint8 id -> repeat_byte_address id = id * 0x01010101.
Proof.
  intros Hid.
  apply Z.eqb_eq.
  apply (uint8_cases (fun i => repeat_byte_address i =? i * 0x01010101)); [|exact Hid].
  vm_compute. reflexivity.
Qed.

Lemma repeat_byte_address_bytes (id k : Z) :
  is_uint8 id -> 0 <= k < RF24_ADDRESS_WIDTH ->
  address_byte (repeat_byte_address id) k = id.
Proof.
  intros Hid Hk.
  assert (Hall : forallb (fun j => address_byte (repeat_byte_address id) j =? id)
                   [0; 1; 2; 3] = true).
  { apply (uint8_cases (fun i =>
      forallb (fun j => address_byte (repeat_byte_address i) j =? i) [0; 1; 2; 3]));
      [vm_compute; reflexivity | exact Hid]. }
  rewrite forallb_forall in Hall. apply Z.eqb_eq, Hall.
  unfold RF24_ADDRESS_WIDTH in Hk.
  assert (k = 0 \/ k = 1 \/ k = 2 \/ k = 3) as [->|[->|[->| ->]]] by lia;
    simpl; tauto.
Qed.

(** The byte order of the target does not matter for a repeated byte. *)
Lemma repeat_byte_address_endianness (id : Z) :
  memcpy_be [id; id; id; id] = memcpy_le [id; id; id; id].
Proof. reflexivity. Qed.

Lemma repeat_byte_address_inj (a b : Z) :
  is_uint8 a -> is_uint8 b ->
  repeat_byte_address a = repeat_byte_address b -> a = b.
Proof.
  intros Ha Hb. rewrite !repeat_byte_address_mul by assumption. lia.
Qed.

Lemma repeat_byte_address_not_sentinel (id : Z) :
  is_uint8 id -> repeat_byte_address id <> BASE_STATION_ADDRESS.
Proof.
  intros Hid Heq.
  assert (Hb0 := repeat_byte_address_bytes id 0 Hid ltac:(unfold RF24_ADDRESS_WIDTH; lia)).
  assert (Hb1 := repeat_byte_address_bytes id 1 Hid ltac:(unfold RF24_ADDRESS_WIDTH; lia)).
  rewrite Heq in Hb0, Hb1. vm_compute in Hb0, Hb1. congruence.
Qed.

Lemma valid_sensor_id_uint8 (id : Z) : valid_sensor_id id -> is_uint8 id.
Proof. unfold valid_sensor_id, is_uint8, SENSOR_NODE_NUM. lia. Qed.

Lemma valid_sensor_id_not_base (id : Z) : valid_sensor_id id -> id <> BASE_STATION_ID.
Proof. unfold valid_sensor_id, BASE_STATION_ID. lia. Qed.

(** C3.  The base station id maps to the reserved address 0xBAD1DEA5; every
    other id maps to the address whose four bytes all equal the id; the
    mapping is injective on the sensor node ids 1..10; and no address made
    by the byte-repetition formula equals the reserved one. *)
Theorem calculate_radio_address_spec :
  calculate_radio_address 0 = 0xBAD1DEA5
  /\ (forall id k, is_uint8 id -> id <> BASE_STATION_ID ->
        0 <= k < RF24_ADDRESS_WIDTH ->
        address_byte (calculate_radio_address id) k = id)
  /\ (forall a b, valid_sensor_id a -> valid_sensor_id b ->
        calculate_radio_address a = calculate_radio_address b -> a = b)
  /\ (forall id, is_uint8 id ->
        repeat_byte_address id <> calculate_radio_address BASE_STATION_ID)
  /\ (forall id, is_uint8 id -> id <> BASE_STATION_ID ->
        calculate_radio_address id <> calculate_radio_address BASE_STATION_ID).
Proof.
  split; [reflexivity|]. split; [|split; [|split]].
  - intros id k Hid Hne Hk.
    rewrite calculate_radio_address_general by exact Hne.
    apply repeat_byte_address_bytes; assumption.
  - intros a b Ha Hb.
    rewrite !calculate_radio_address_general by (apply valid_sensor_id_not_base; assumption).
    apply repeat_byte_address_inj; apply valid_sensor_id_uint8; assumption.
  - intros id Hid. rewrite calculate_radio_address_base.
    apply repeat_byte_address_not_sentinel, Hid.
  - intros id Hid Hne. rewrite calculate_radio_address_general by exact Hne.
    rewrite calculate_radio_address_base.
    apply repeat_byte_address_not_sentinel, Hid.
Qed.

Lemma calculate_radio_address_spec_witness :
  address_byte (calculate_radio_address 7) 2 = 7
  /\ (calculate_radio_address 3 = calculate_radio_address 3 -> 3 = 3)
  /\ repeat_byte_address 0 <> calculate_radio_address BASE_STATION_ID
  /\ calculate_radio_address 10 <> calculate_radio_address BASE_STATION_ID.
Proof.
  destruct calculate_radio_address_spec as (_ & Hbytes & Hinj & Hrep & Hsent).
  split; [|split; [|split]].
  - apply Hbytes; [unfold is_uint8; lia | unfold BASE_STATION_ID; lia
                  | unfold RF24_ADDRESS_WIDTH; lia].
  - apply Hinj; unfold valid_sensor_id, SENSOR_NODE_NUM; lia.
  - apply Hrep. unfold is_uint8; lia.
  - apply Hsent; [unfold is_uint8; lia | unfold BASE_STATION_ID; lia].
Defined.

(** ** Channel derivation *)

Lemma calculate_radio_channel_wraps (id : Z) :
  calculate_radio_channel id = (id * RF24_CHANNEL_SPACING) mod 256.
Proof. reflexivity. Qed.

Lemma calculate_radio_channel_exact (id : Z) :
  0 <= id <= 51 -> calculate_radio_channel id = id * RF24_CHANNEL_SPACING.
Proof.
  intros Hid. unfold calculate_radio_channel, uint8, RF24_CHANNEL_SPACING.
  apply Z.mod_small. lia.
Qed.

(** The product does not fit the [uint8_t] result from id 52 on: the
    channel of id 52 is 4, not 260. *)
Lemma calculate_radio_channel_not_product :
  ~ (forall id, is_uint8 id ->
       calculate_radio_channel id = id * RF24_CHANNEL_SPACING).
Proof.
  intros H. specialize (H 52 ltac:(unfold is_uint8; lia)).
  vm_compute in H. discriminate H.
Qed.

(** C4, amended.  The spacing is the constant 5, which is at least 2; the
    channel of an id is [id * 5] reduced modulo 256, which is [id * 5]
    itself for every id up to 51 and so for every supported id 0..10; the
    channel of the largest supported id, 10, is 50 and lies within 0..125;
    and the channels of two distinct supported ids differ by at least 2. *)
Theorem calculate_radio_channel_spec :
  RF24_CHANNEL_SPACING = 5 /\ 2 <= RF24_CHANNEL_SPACING
  /\ (forall id, calculate_radio_channel id = (id * RF24_CHANNEL_SPACING) mod 256)
  /\ (forall id, 0 <= id <= 51 ->
        calculate_radio_channel id = id * RF24_CHANNEL_SPACING)
  /\ calculate_radio_channel SENSOR_NODE_NUM = 50
  /\ 0 <= calculate_radio_channel SENSOR_NODE_NUM <= RF24_CHANNEL_MAX
  /\ (forall a b, 0 <= a <= SENSOR_NODE_NUM -> 0 <= b <= SENSOR_NODE_NUM ->
        a <> b ->
        2 <= Z.abs (calculate_radio_channel a - calculate_radio_channel b)).
Proof.
  split; [reflexivity|]. split; [unfold RF24_CHANNEL_SPACING; lia|].
  split; [exact calculate_radio_channel_wraps|].
  split; [exact calculate_radio_channel_exact|].
  split; [reflexivity|]. split; [vm_compute; split; discriminate|].
  intros a b Ha Hb Hne. unfold SENSOR_NODE_NUM in Ha, Hb.
  rewrite !calculate_radio_channel_exact by lia.
  unfold RF24_CHANNEL_SPACING. lia.
Qed.

Lemma calculate_radio_channel_spec_witness :
  calculate_radio_channel 51 = 51 * RF24_CHANNEL_SPACING
  /\ 2 <= Z.abs (calculate_radio_channel 3 - calculate_radio_channel 4).
Proof.
  destruct calculate_radio_channel_spec as (_ & _ & _ & Hexact & _ & _ & Hgap).
  split.
  - apply Hexact. lia.
  - apply Hgap; unfold SENSOR_NODE_NUM; lia.
Defined.

(** ** The message type accessor *)

Lemma get_type_out_of_fuel (fuel : nat) (m : Message) : get_type fuel m = None.
Proof. induction fuel as [|fuel IH]; [reflexivity | exact IH]. Qed.

Lemma get_type_returns_nothing (m : Message) (v : message_t) :
  ~ get_type_returns m v.
Proof. intros H. induction H as [m v _ IH]. exact IH. Qed.

(** C7, as the code has it.  A call of [Message::get_type] never returns:
    whatever the fuel, no activation produces a value, and in particular
    not the kind stored at construction; the evaluation relation of the
    method relates no message to any result. *)
Theorem get_type_never_returns :
  (forall fuel rx tx ty, get_type fuel (Message_new rx tx ty) = None)
  /\ (forall fuel rx tx ty,
        get_type fuel (Message_new rx tx ty)
        <> Some (get_type_intended (Message_new rx tx ty)))
  /\ (forall m v, ~ get_type_returns m v).
Proof.
  split; [|split].
  - intros fuel rx tx ty. apply get_type_out_of_fuel.
  - intros fuel rx tx ty. rewrite get_type_out_of_fuel. discriminate.
  - exact get_type_returns_nothing.
Qed.

(** ** The sensor status *)

Lemma tof_sensor_status_eqb_spec (a b : tof_sensor_status_t) :
  tof_sensor_status_eqb a b = true <-> a = b.
Proof. destruct a, b; simpl; split; congruence. Qed.

Lemma mapped_status_cases (status : Z) :
  (status = VL6180X_ERROR_NONE /\ mapped_status status = Some OCCUPIED)
  \/ (status = VL6180X_ERROR_NOCONVERGE /\ mapped_status status = Some VACANT)
  \/ (status <> VL6180X_ERROR_NONE /\ status <> VL6180X_ERROR_NOCONVERGE
      /\ mapped_status status = None).
Proof.
  unfold mapped_status.
  destruct (Z.eqb_spec status VL6180X_ERROR_NONE) as [->|H0]; [left; auto|].
  destruct (Z.eqb_spec status VL6180X_ERROR_NOCONVERGE) as [->|H7]; [right; left; auto|].
  right; right; auto.
Qed.

(** The code agrees with the mapping as the specification words it. *)
Lemma is_sensor_status_changed_mapped (status : Z) (this : SensorNode) :
  is_sensor_status_changed status this =
  match mapped_status status with
  | None => (false, this)
  | Some s =>
      if tof_sensor_status_eqb s (sensor_status this) then (false, this)
      else (true, set_sensor_status s this)
  end.
Proof.
  unfold is_sensor_status_changed, mapped_status.
  rewrite (Z.eqb_sym VL6180X_ERROR_NONE), (Z.eqb_sym VL6180X_ERROR_NOCONVERGE).
  destruct (status =? VL6180X_ERROR_NONE); [reflexivity|].
  destruct (status =? VL6180X_ERROR_NOCONVERGE); reflexivity.
Qed.

(** C6.  A raw status of no error maps to occupied and no convergence to
    vacant; for any other raw status the call returns false and leaves the
    node as it was; otherwise the call returns true exactly when the mapped
    status differs from the stored one, stores the mapped status in that
    case and leaves the node as it was in the other; no other field of the
    node is ever changed. *)
Theorem is_sensor_status_changed_spec (status : Z) (this : SensorNode) :
  let changed := fst (is_sensor_status_changed status this) in
  let this' := snd (is_sensor_status_changed status this) in
  mapped_status VL6180X_ERROR_NONE = Some OCCUPIED
  /\ mapped_status VL6180X_ERROR_NOCONVERGE = Some VACANT
  /\ (status <> VL6180X_ERROR_NONE -> status <> VL6180X_ERROR_NOCONVERGE ->
        mapped_status status = None /\ changed = false /\ this' = this)
  /\ (forall s, mapped_status status = Some s ->
        (changed = true <-> s <> sensor_status this)
        /\ (changed = true -> sensor_status this' = s)
        /\ (changed = false -> this' = this))
  /\ node_id this' = node_id this
  /\ radio_address this' = radio_address this
  /\ radio_channel this' = radio_channel this.
Proof.
  intros changed this'. subst changed this'.
  rewrite is_sensor_status_changed_mapped.
  split; [reflexivity|]. split; [reflexivity|].
  split; [|split].
  - intros H0 H7.
    destruct (mapped_status_cases status) as [[E _]|[[E _]|(_ & _ & ->)]];
      [contradiction..|auto].
  - intros s ->.
    destruct (tof_sensor_status_eqb s (sensor_status this)) eqn:E; simpl.
    + apply tof_sensor_status_eqb_spec in E. repeat split; congruence.
    + assert (s <> sensor_status this).
      { intros Heq. apply tof_sensor_status_eqb_spec in Heq. congruence. }
      repeat split; congruence.
  - destruct (mapped_status status) as [s|]; [|auto].
    destruct (tof_sensor_status_eqb s (sensor_status this)); auto.
Qed.

Lemma is_sensor_status_changed_spec_witness :
  (mapped_status 11 = None
   /\ fst (is_sensor_status_changed 11 (SensorNode_new 2)) = false
   /\ snd (is_sensor_status_changed 11 (SensorNode_new 2)) = SensorNode_new 2)
  /\ (fst (is_sensor_status_changed 7 (SensorNode_new 2)) = true
      /\ sensor_status (snd (is_sensor_status_changed 7 (SensorNode_new 2))) = VACANT).
Proof.
  split.
  - apply (is_sensor_status_changed_spec 11 (SensorNode_new 2));
      unfold VL6180X_ERROR_NONE, VL6180X_ERROR_NOCONVERGE; lia.
  - destruct (is_sensor_status_changed_spec 7 (SensorNode_new 2))
      as (_ & _ & _ & Hmapped & _).
    destruct (Hmapped VACANT eq_refl) as (Hiff & Hstore & _).
    assert (Hc : fst (is_sensor_status_changed 7 (SensorNode_new 2)) = true).
    { apply Hiff. simpl. discriminate. }
    split; [exact Hc | exact (Hstore Hc)].
Defined.

(** ** The pseudo-random backoff *)

Lemma libc_random_range (raw : Z) :
  0 <= Arduino.libc_random raw <= Arduino.RANDOM_MAX.
Proof.
  unfold Arduino.libc_random, Arduino.RANDOM_MAX.
  pose proof (Z.mod_pos_bound raw (0x7FFFFFFF + 1) ltac:(lia)). lia.
Qed.

(** [random(howsmall, howbig)] stays below [howbig]. *)
Lemma random_between_range (howsmall howbig raw : Z) :
  howsmall < howbig ->
  howsmall <= Arduino.random_between howsmall howbig raw < howbig.
Proof.
  intros Hlt. unfold Arduino.random_between, Arduino.random_upto.
  destruct (Z.geb_spec howsmall howbig) as [Hge|_]; [lia|].
  destruct (Z.eqb_spec (howbig - howsmall) 0) as [H0|_]; [lia|].
  pose proof (libc_random_range raw) as [Hraw _].
  pose proof (Z.rem_bound_pos (Arduino.libc_random raw) (howbig - howsmall)
                Hraw ltac:(lia)).
  lia.
Qed.

(** Every value of the half-open range is drawn for some raw number. *)
Lemma random_between_hits (howsmall howbig v : Z) :
  howsmall <= v < howbig -> howbig - howsmall <= Arduino.RANDOM_MAX ->
  Arduino.random_between howsmall howbig (v - howsmall) = v.
Proof.
  intros Hv Hwidth. unfold Arduino.random_between, Arduino.random_upto.
  destruct (Z.geb_spec howsmall howbig) as [Hge|_]; [lia|].
  destruct (Z.eqb_spec (howbig - howsmall) 0) as [H0|_]; [lia|].
  unfold Arduino.libc_random, Arduino.RANDOM_MAX in *.
  rewrite (Z.mod_small (v - howsmall)) by lia.
  rewrite Z.rem_small by lia. lia.
Qed.

Lemma backoff_range (raw : Z) :
  25 <= uint32 (Arduino.random_between
                  CHANNEL_BUSY_DELAY_MIN_MS CHANNEL_BUSY_DELAY_MAX_MS raw) <= 99.
Proof.
  pose proof (random_between_range CHANNEL_BUSY_DELAY_MIN_MS
                CHANNEL_BUSY_DELAY_MAX_MS raw) as H.
  unfold CHANNEL_BUSY_DELAY_MIN_MS, CHANNEL_BUSY_DELAY_MAX_MS in *.
  specialize (H ltac:(lia)).
  unfold uint32. rewrite Z.mod_small; lia.
Qed.

(** ** The carrier-sense loop *)

Lemma delays_app (evs1 evs2 : list event) :
  delays (evs1 ++ evs2) = delays evs1 ++ delays evs2.
Proof. unfold delays. apply omap_app. Qed.

Lemma emitted_app {A} (m : M A) (env : Env) (w : World) (evs : list event) :
  trace (snd (m env w)) = trace w ++ evs -> emitted m env w = evs.
Proof. intros H. unfold emitted. rewrite H. apply drop_app_length. Qed.

Lemma finds_idle_all_busy (env : Env) (w : World) (n : nat) :
  all_busy env w n -> finds_idle env (probes w) n = false.
Proof.
  unfold all_busy. generalize (probes w) as first.
  induction n as [|n IH]; intros first Hbusy; [reflexivity|].
  simpl. rewrite <- (Nat.add_0_r first) at 1.
  rewrite Hbusy by lia. simpl.
  apply IH. intros k Hk. replace (S first + k)%nat with (first + S k)%nat by lia.
  apply Hbusy. lia.
Qed.

(** The loop leaves the radio and the count of frames alone, makes only
    probes, draws and delays, takes each delay from 25 to 99 ms, and
    leaves [is_channel_open] true exactly when one of its probes found
    the channel idle. *)
Lemma carrier_sense_loop_effect (n : nat) (env : Env) (w : World) :
  radio (snd (carrier_sense_loop n env w)) = radio w
  /\ frames (snd (carrier_sense_loop n env w)) = frames w
  /\ fst (carrier_sense_loop n env w) = finds_idle env (probes w) n
  /\ exists evs,
       trace (snd (carrier_sense_loop n env w)) = trace w ++ evs
       /\ forallb is_loop_event evs = true
       /\ Forall (fun d => 25 <= d <= 99) (delays evs).
Proof.
  revert w. induction n as [|n IH]; intros w.
  - simpl. repeat split. exists []. rewrite app_nil_r. repeat split. constructor.
  - cbn [carrier_sense_loop finds_idle].
    unfold bind, Radio.testCarrier, Arduino.random, Arduino.delay, ret.
    destruct (carrier_at env (probes w)) eqn:Hcarrier; cbn [negb orb].
    + match goal with
      | |- context [carrier_sense_loop n env ?w3] =>
          destruct (IH w3) as (Hradio & Hframes & Hres & evs & Htrace & Hloop & Hdelays)
      end.
      cbn [radio frames probes trace log] in Hradio, Hframes, Hres, Htrace.
      destruct (carrier_sense_loop n env _) as [b w4]; cbn [fst snd] in *.
      repeat split; try assumption.
      eexists (EvTestCarrier true :: EvRandom _ _ _ :: EvDelay _ :: evs).
      split; [rewrite Htrace, <- !app_assoc; reflexivity|].
      split; [exact Hloop|].
      cbn. constructor; [apply backoff_range | exact Hdelays].
    + cbn. repeat split.
      exists [EvTestCarrier false]. repeat split. constructor.
Qed.

#[local] Arguments carrier_sense_loop : simpl never.

Lemma loop_events_no_write (evs : list event) :
  forallb is_loop_event evs = true -> existsb is_write evs = false.
Proof.
  induction evs as [|e evs IH]; [reflexivity|].
  cbn [forallb existsb]. intros [He Hrest]%andb_true_iff.
  rewrite (IH Hrest). destruct e; try discriminate He; reflexivity.
Qed.

(** ** The transmit protocol *)

(** What one call of [transmit_update] does, whatever the state at entry:
    the radio ends on the node's own channel with the reading pipe open on
    the node's own address; it ends in listening mode when a probe found
    the channel idle, and otherwise in the mode it was in at entry; the
    call returns true when a probe found the channel idle and the frame was
    acknowledged; a frame is written exactly when a probe found the channel
    idle; each delay lies between 25 and 99 ms. *)
Lemma transmit_update_effect (this : SensorNode) (msg : UpdateMessage)
    (env : Env) (w : World) :
  let res := transmit_update this msg env w in
  let idle := finds_idle env (probes w) CHANNEL_CHECKS_MAX in
  own_channel this (radio (snd res))
  /\ own_pipe_open this (radio (snd res))
  /\ rf_listening (radio (snd res)) = idle || rf_listening (radio w)
  /\ fst res = idle && acked_at env (frames w)
  /\ exists evs,
       trace (snd res) = trace w ++ evs
       /\ existsb is_write evs = idle
       /\ Forall (fun d => 25 <= d <= 99) (delays evs).
Proof.
  cbv zeta.
  unfold transmit_update, bind, Radio.setChannel, Radio.stopListening,
    Radio.closeReadingPipe, Radio.openWritingPipe, Radio.write,
    Radio.openReadingPipe, Radio.startListening, ret.
  match goal with
  | |- context [carrier_sense_loop ?n env ?w1] =>
      destruct (carrier_sense_loop_effect n env w1)
        as (Hradio & Hframes & Hres & evs & Htrace & Hloop & Hdelays);
      destruct (carrier_sense_loop n env w1) as [is_channel_open w2]
  end.
  cbn [fst snd radio frames probes trace log set_radio] in Hradio, Hframes, Hres, Htrace.
  rewrite <- Hres. clear Hres.
  unfold own_channel, own_pipe_open.
  destruct is_channel_open; cbn [negb orb andb fst snd radio trace log set_radio
    rf_channel rf_reading_pipes rf_listening Radio.set_listening frames].
  - rewrite Hframes.
    split; [reflexivity|]. split; [apply lookup_insert_eq|].
    split; [reflexivity|]. split; [reflexivity|].
    eexists (EvSetChannel _ :: evs ++
             [EvStopListening; EvCloseReadingPipe _; EvOpenWritingPipe _;
              EvWrite _ _; EvSetChannel _; EvOpenReadingPipe _ _; EvStartListening]).
    split; [rewrite Htrace, <- !app_assoc; reflexivity|].
    split.
    + cbn [existsb is_write orb]. rewrite existsb_app. cbn.
      apply orb_true_iff. right. reflexivity.
    + change (delays (EvSetChannel ?c :: ?l)) with (delays l).
      rewrite delays_app. cbn. rewrite app_nil_r. exact Hdelays.
  - rewrite Hradio. cbn [rf_listening].
    split; [reflexivity|]. split; [apply lookup_insert_eq|].
    split; [reflexivity|]. split; [reflexivity|].
    eexists (EvSetChannel _ :: evs ++ [EvSetChannel _; EvOpenReadingPipe _ _]).
    split; [rewrite Htrace, <- !app_assoc; reflexivity|].
    split.
    + cbn [existsb is_write orb]. rewrite existsb_app, (loop_events_no_write _ Hloop).
      reflexivity.
    + change (delays (EvSetChannel ?c :: ?l)) with (delays l).
      rewrite delays_app. cbn. rewrite app_nil_r. exact Hdelays.
Qed.

(** The trace of a call is the trace of its carrier-sense loop followed by
    the calls of the exit path. *)
Lemma transmit_update_trace (this : SensorNode) (msg : UpdateMessage)
    (env : Env) (w : World) :
  exists tail,
    trace (snd (transmit_update this msg env w)) =
    trace (snd (carrier_sense_loop CHANNEL_CHECKS_MAX env
                  (snd (Radio.setChannel
                          (calculate_radio_channel (get_rx_id (header msg))) env w))))
    ++ tail.
Proof.
  unfold transmit_update, bind, Radio.setChannel, Radio.stopListening,
    Radio.closeReadingPipe, Radio.openWritingPipe, Radio.write,
    Radio.openReadingPipe, Radio.startListening, ret.
  cbn [snd].
  destruct (carrier_sense_loop CHANNEL_CHECKS_MAX env _) as [is_channel_open w2].
  destruct is_channel_open; cbn [negb snd trace log set_radio];
    eexists; rewrite <- ?app_assoc; reflexivity.
Qed.

(** A first probe that finds a carrier is followed by a draw and by a
    delay of the drawn length. *)
Lemma carrier_sense_loop_busy_first (n : nat) (env : Env) (w : World) :
  carrier_at env (probes w) = true ->
  exists evs,
    trace (snd (carrier_sense_loop (S n) env w)) =
    trace w ++
    [EvTestCarrier true;
     EvRandom CHANNEL_BUSY_DELAY_MIN_MS CHANNEL_BUSY_DELAY_MAX_MS
       (Arduino.random_between CHANNEL_BUSY_DELAY_MIN_MS CHANNEL_BUSY_DELAY_MAX_MS
          (raw_random_at env (draws w)));
     EvDelay (uint32 (Arduino.random_between CHANNEL_BUSY_DELAY_MIN_MS
                        CHANNEL_BUSY_DELAY_MAX_MS (raw_random_at env (draws w))))]
    ++ evs.
Proof.
  intros Hbusy. unfold carrier_sense_loop; fold carrier_sense_loop.
  unfold bind, Radio.testCarrier, Arduino.random, Arduino.delay, ret.
  rewrite Hbusy. cbn [negb].
  match goal with
  | |- context [carrier_sense_loop n env ?w3] =>
      destruct (carrier_sense_loop_effect n env w3) as (_ & _ & _ & evs & Htrace & _)
  end.
  exists evs. rewrite Htrace. cbn [trace log]. rewrite <- !app_assoc. reflexivity.
Qed.

(** With a busy first probe the call delays for the length that the raw
    random number decides. *)
Lemma transmit_update_first_delay (this : SensorNode) (msg : UpdateMessage)
    (env : Env) (w : World) :
  carrier_at env (probes w) = true ->
  uint32 (Arduino.random_between CHANNEL_BUSY_DELAY_MIN_MS CHANNEL_BUSY_DELAY_MAX_MS
            (raw_random_at env (draws w)))
  ∈ delays (emitted (transmit_update this msg) env w).
Proof.
  intros Hbusy.
  destruct (transmit_update_trace this msg env w) as [tail Htail].
  destruct (carrier_sense_loop_busy_first (pred CHANNEL_CHECKS_MAX) env
              (snd (Radio.setChannel
                      (calculate_radio_channel (get_rx_id (header msg))) env w))
              Hbusy) as [evs Hevs].
  change (S (pred CHANNEL_CHECKS_MAX)) with CHANNEL_CHECKS_MAX in Hevs.
  rewrite Hevs in Htail. cbn [Radio.setChannel snd trace log set_radio draws] in Htail.
  rewrite <- !app_assoc in Htail.
  rewrite (emitted_app _ _ _ _ Htail).
  cbn. apply list_elem_of_here.
Qed.

Lemma transmit_update_delays (this : SensorNode) (msg : UpdateMessage)
    (env : Env) (w : World) (d : Z) :
  d ∈ delays (emitted (transmit_update this msg) env w) -> 25 <= d <= 99.
Proof.
  destruct (transmit_update_effect this msg env w)
    as (_ & _ & _ & _ & evs & Htrace & _ & Hdelays).
  rewrite (emitted_app _ _ _ _ Htrace).
  intros Hd. rewrite Forall_forall in Hdelays. exact (Hdelays d Hd).
Qed.

(** A successful [init] leaves the radio in its resting configuration. *)
Lemma init_at_rest (this : SensorNode) (env : Env) (w : World) :
  fst (init this env w) = true -> at_rest this (radio (snd (init this env w))).
Proof.
  unfold init, bind, sensor_begin, Radio.begin, Radio.configure,
    Radio.setChannel, Radio.openReadingPipe, Radio.startListening, ret.
  destruct (sensor_begins env); cbn; [|discriminate].
  destruct (radio_begins env); cbn; [|discriminate].
  intros _. unfold at_rest, own_channel, own_pipe_open. cbn.
  split; [reflexivity|]. split; [apply lookup_insert_eq | reflexivity].
Qed.

(** The radio of node 2 started from scratch is the radio at rest. *)
Lemma init_node2 :
  radio (snd (init Scenario.node2 (Scenario.env_idle true)
                (Scenario.world_of Scenario.radio_not_started)))
  = Scenario.radio_initialised Scenario.node2.
Proof. reflexivity. Qed.

(** The resting configuration is an invariant of the transmit protocol:
    it holds after every call of a series that starts from it. *)
Lemma transmit_updates_at_rest (this : SensorNode) (msgs : list UpdateMessage)
    (env : Env) (w : World) :
  at_rest this (radio w) ->
  at_rest this (radio (snd (transmit_updates this msgs env w))).
Proof.
  revert w. induction msgs as [|msg msgs IH]; intros w Hrest; [exact Hrest|].
  cbn [transmit_updates]. unfold bind at 1.
  pose proof (transmit_update_effect this msg env w) as (Hc & Hp & Hl & _).
  destruct (transmit_update this msg env w) as [is_sent w1].
  cbn [fst snd] in Hc, Hp, Hl.
  assert (Hrest1 : at_rest this (radio w1)).
  { destruct Hrest as (_ & _ & Hlisten). rewrite Hlisten, orb_true_r in Hl.
    repeat split; assumption. }
  specialize (IH w1 Hrest1). unfold bind.
  destruct (transmit_updates this msgs env w1) as [results w2]. exact IH.
Qed.

(** C1.  Every call of [transmit_update] made on a node whose radio is
    listening, as [init] leaves it and as every operation of the node
    keeps it, returns with the radio in its resting configuration: on the
    node's own channel, the node's reading pipe open on its own address,
    in listening mode.  This holds whatever the call returns (sent,
    carrier busy, send failed).  The channel and the pipe are restored
    from any state at entry; the send path starts listening again, and
    the carrier-busy path, which never stops listening, leaves the mode
    as it was. *)
Theorem transmit_update_restores (this : SensorNode) (msg : UpdateMessage)
    (env : Env) (w : World) :
  let r' := radio (snd (transmit_update this msg env w)) in
  own_channel this r'
  /\ own_pipe_open this r'
  /\ rf_listening r' =
     finds_idle env (probes w) CHANNEL_CHECKS_MAX || rf_listening (radio w)
  /\ (rf_listening (radio w) = true -> at_rest this r').
Proof.
  destruct (transmit_update_effect this msg env w)
    as (Hchannel & Hpipe & Hlisten & _).
  cbv zeta. repeat split; try assumption.
  rewrite Hlisten. apply orb_true_iff. right. assumption.
Qed.

Lemma transmit_update_restores_witness :
  at_rest Scenario.node2
    (radio (snd (transmit_update Scenario.node2 Scenario.update2
                   (Scenario.env_busy 0)
                   (Scenario.world_of (Scenario.radio_initialised Scenario.node2)))))
  /\ at_rest Scenario.node2
       (radio (snd (transmit_update Scenario.node2 Scenario.update2
                      (Scenario.env_idle false)
                      (Scenario.world_of (Scenario.radio_initialised Scenario.node2))))).
Proof.
  split.
  - apply (transmit_update_restores Scenario.node2 Scenario.update2
             (Scenario.env_busy 0)
             (Scenario.world_of (Scenario.radio_initialised Scenario.node2))).
    reflexivity.
  - apply (transmit_update_restores Scenario.node2 Scenario.update2
             (Scenario.env_idle false)
             (Scenario.world_of (Scenario.radio_initialised Scenario.node2))).
    reflexivity.
Defined.

(** C2.  When the channel is found busy on all ten probes, the call returns
    false, no frame is handed to the radio's write primitive, and the radio
    is back on the node's own channel with the reading pipe open on the
    node's own address. *)
Theorem transmit_update_carrier_busy (this : SensorNode) (msg : UpdateMessage)
    (env : Env) (w : World) :
  all_busy env w CHANNEL_CHECKS_MAX ->
  fst (transmit_update this msg env w) = false
  /\ existsb is_write (emitted (transmit_update this msg) env w) = false
  /\ own_channel this (radio (snd (transmit_update this msg env w)))
  /\ own_pipe_open this (radio (snd (transmit_update this msg env w))).
Proof.
  intros Hbusy. apply finds_idle_all_busy in Hbusy.
  destruct (transmit_update_effect this msg env w)
    as (Hchannel & Hpipe & _ & Hres & evs & Htrace & Hwrite & _).
  rewrite Hbusy in Hres, Hwrite.
  rewrite (emitted_app _ _ _ _ Htrace).
  repeat split; assumption.
Qed.

Lemma transmit_update_carrier_busy_witness :
  fst (transmit_update Scenario.node2 Scenario.update2 (Scenario.env_busy 0)
         (Scenario.world_of (Scenario.radio_initialised Scenario.node2))) = false
  /\ existsb is_write
       (emitted (transmit_update Scenario.node2 Scenario.update2)
          (Scenario.env_busy 0)
          (Scenario.world_of (Scenario.radio_initialised Scenario.node2))) = false
  /\ own_channel Scenario.node2
       (radio (snd (transmit_update Scenario.node2 Scenario.update2
                      (Scenario.env_busy 0)
                      (Scenario.world_of (Scenario.radio_initialised Scenario.node2)))))
  /\ own_pipe_open Scenario.node2
       (radio (snd (transmit_update Scenario.node2 Scenario.update2
                      (Scenario.env_busy 0)
                      (Scenario.world_of (Scenario.radio_initialised Scenario.node2))))).
Proof.
  apply (transmit_update_carrier_busy Scenario.node2 Scenario.update2
           (Scenario.env_busy 0)
           (Scenario.world_of (Scenario.radio_initialised Scenario.node2))).
  intros k Hk. reflexivity.
Defined.

(** C5, as stated, fails: 100 ms is not a possible delay, the upper bound
    of [random(25, 100)] being exclusive. *)
Lemma transmit_update_never_delays_100 :
  ~ (forall v,
       CHANNEL_BUSY_DELAY_MIN_MS <= v <= CHANNEL_BUSY_DELAY_MAX_MS ->
       exists this msg env w,
         v ∈ delays (emitted (transmit_update this msg) env w)).
Proof.
  intros H.
  destruct (H 100) as (this & msg & env & w & Hd).
  - unfold CHANNEL_BUSY_DELAY_MIN_MS, CHANNEL_BUSY_DELAY_MAX_MS. lia.
  - apply transmit_update_delays in Hd. lia.
Qed.

(** C5, amended.  Every backoff delay taken in the carrier-sense loop is
    the value of [random(25, 100)], whose upper bound is exclusive: the
    delay lies in the range 25 to 99 ms inclusive; every integer from 25
    through 99 is a possible delay; 100 is not.  (How the draws are
    distributed is decided by the pseudo-random generator and is not part
    of the statement.) *)
Theorem transmit_update_backoff :
  (forall this msg env w d,
     d ∈ delays (emitted (transmit_update this msg) env w) ->
     CHANNEL_BUSY_DELAY_MIN_MS <= d < CHANNEL_BUSY_DELAY_MAX_MS)
  /\ (forall this msg w v,
        CHANNEL_BUSY_DELAY_MIN_MS <= v < CHANNEL_BUSY_DELAY_MAX_MS ->
        exists env, v ∈ delays (emitted (transmit_update this msg) env w))
  /\ (forall this msg env w,
        CHANNEL_BUSY_DELAY_MAX_MS ∉ delays (emitted (transmit_update this msg) env w)).
Proof.
  unfold CHANNEL_BUSY_DELAY_MIN_MS, CHANNEL_BUSY_DELAY_MAX_MS.
  split; [|split].
  - intros this msg env w d Hd. apply transmit_update_delays in Hd. lia.
  - intros this msg w v Hv. exists (Scenario.env_busy (v - 25)).
    pose proof (transmit_update_first_delay this msg
                  (Scenario.env_busy (v - 25)) w eq_refl) as Hd.
    cbn [Scenario.env_busy raw_random_at] in Hd.
    unfold CHANNEL_BUSY_DELAY_MIN_MS, CHANNEL_BUSY_DELAY_MAX_MS in Hd.
    rewrite random_between_hits in Hd
      by (unfold Arduino.RANDOM_MAX; lia).
    unfold uint32 in Hd. rewrite Z.mod_small in Hd by lia. exact Hd.
  - intros this msg env w Hd. apply transmit_update_delays in Hd. lia.
Qed.

Lemma transmit_update_backoff_witness :
  (exists env,
     99 ∈ delays (emitted (transmit_update Scenario.node2 Scenario.update2) env
                    (Scenario.world_of (Scenario.radio_initialised Scenario.node2))))
  /\ (99 ∈ delays (emitted (transmit_update Scenario.node2 Scenario.update2)
                     (Scenario.env_busy 74)
                     (Scenario.world_of (Scenario.radio_initialised Scenario.node2))) ->
      CHANNEL_BUSY_DELAY_MIN_MS <= 99 < CHANNEL_BUSY_DELAY_MAX_MS).
Proof.
  destruct transmit_update_backoff as (Hrange & Hall & _).
  split.
  - apply Hall. unfold CHANNEL_BUSY_DELAY_MIN_MS, CHANNEL_BUSY_DELAY_MAX_MS. lia.
  - apply Hrange.
Defined.

(** ** The receive path *)

(** C10.  With no payload waiting, [read_message] returns false, makes no
    read on the radio and leaves the buffer and the radio as they were;
    with a payload waiting it returns true after one read of [len] bytes
    into the buffer, which takes the payload off the queue. *)
Theorem read_message_spec (buffer : list Z) (len : Z) (env : Env) (w : World) :
  let res := read_message buffer len env w in
  (rf_rx_fifo (radio w) = [] ->
     fst res = (false, buffer)
     /\ existsb is_read (emitted (read_message buffer len) env w) = false
     /\ radio (snd res) = radio w)
  /\ (forall payload rest,
        rf_rx_fifo (radio w) = payload :: rest ->
        fst res = (true, Radio.copy_into payload len buffer)
        /\ emitted (read_message buffer len) env w = [EvAvailable true; EvRead len]
        /\ rf_rx_fifo (radio (snd res)) = rest).
Proof.
  cbv zeta. unfold emitted, read_message, bind, Radio.available, Radio.read, ret.
  split.
  - intros Hempty. rewrite Hempty. cbn. rewrite drop_app_length. auto.
  - intros payload rest Hfifo. rewrite Hfifo. cbn.
    rewrite <- app_assoc, drop_app_length, Hfifo. auto.
Qed.

Lemma read_message_spec_witness :
  (fst (read_message [0; 0; 0] 3 (Scenario.env_idle true)
          (Scenario.world_of (Scenario.radio_initialised Scenario.node2)))
   = (false, [0; 0; 0]))
  /\ (fst (read_message [0; 0; 0] 3 (Scenario.env_idle true)
             (Scenario.world_of (Scenario.radio_with_payload Scenario.node2 [0; 2; 1; 2])))
      = (true, [0; 2; 1])).
Proof.
  split.
  - destruct (read_message_spec [0; 0; 0] 3 (Scenario.env_idle true)
                (Scenario.world_of (Scenario.radio_initialised Scenario.node2)))
      as [Hnone _].
    apply Hnone. reflexivity.
  - destruct (read_message_spec [0; 0; 0] 3 (Scenario.env_idle true)
                (Scenario.world_of
                   (Scenario.radio_with_payload Scenario.node2 [0; 2; 1; 2])))
      as [_ Hsome].
    apply (Hsome [0; 2; 1; 2] []). reflexivity.
Defined.

(** ** The base station registry *)

Module BaseStationFacts.
Import BaseStation.

Lemma is_valid_sensor_node_iff (id : Z) :
  is_valid_sensor_node id = true <-> 1 <= id <= SENSOR_NODE_NUM.
Proof. unfold is_valid_sensor_node. rewrite andb_true_iff. lia. Qed.

Lemma is_valid_sensor_node_false (id : Z) :
  is_valid_sensor_node id = false <-> ~ (1 <= id <= SENSOR_NODE_NUM).
Proof.
  rewrite <- is_valid_sensor_node_iff.
  destruct (is_valid_sensor_node id); split; congruence.
Qed.

Lemma well_sized_init : well_sized node_status_init.
Proof. reflexivity. Qed.

Lemma update_node_status_invalid (ns : list bool) (id : Z) (v : bool) :
  is_valid_sensor_node id = false -> update_node_status ns id v = Some (false, ns).
Proof. intros H. unfold update_node_status. rewrite H. reflexivity. Qed.

Lemma update_node_status_valid (ns : list bool) (id : Z) (v : bool) :
  well_sized ns -> is_valid_sensor_node id = true ->
  update_node_status ns id v = Some (true, <[Z.to_nat (id - 1) := v]> ns).
Proof.
  intros Hsize Hvalid. unfold update_node_status, array_set. rewrite Hvalid.
  apply is_valid_sensor_node_iff in Hvalid.
  unfold well_sized in Hsize. rewrite Hsize. unfold SENSOR_NODE_NUM in *.
  cbn [negb].
  destruct (Z.leb_spec 0 (id - 1)); [|lia].
  destruct (Z.ltb_spec (id - 1) (Z.of_nat (Z.to_nat 10))); [reflexivity|lia].
Qed.

Lemma get_node_status_valid (ns : list bool) (id : Z) :
  well_sized ns -> is_valid_sensor_node id = true ->
  get_node_status ns id = ns !! Z.to_nat (id - 1)
  /\ is_Some (ns !! Z.to_nat (id - 1)).
Proof.
  intros Hsize Hvalid. unfold get_node_status, array_get. rewrite Hvalid.
  apply is_valid_sensor_node_iff in Hvalid.
  unfold well_sized in Hsize. unfold SENSOR_NODE_NUM in *.
  cbn [negb]. rewrite Hsize.
  destruct (Z.leb_spec 0 (id - 1)); [|lia].
  destruct (Z.ltb_spec (id - 1) (Z.of_nat (Z.to_nat 10))); [|lia].
  split; [reflexivity|]. apply lookup_lt_is_Some. lia.
Qed.

Lemma update_node_status_well_sized (ns ns' : list bool) (id : Z) (v ok : bool) :
  well_sized ns -> update_node_status ns id v = Some (ok, ns') -> well_sized ns'.
Proof.
  intros Hsize. destruct (is_valid_sensor_node id) eqn:Hvalid.
  - rewrite update_node_status_valid by assumption.
    intros [= _ <-]. unfold well_sized. rewrite length_insert. exact Hsize.
  - rewrite update_node_status_invalid by assumption.
    intros [= _ <-]. exact Hsize.
Qed.

(** C8.  An id is valid exactly when it lies in [1, 10].  On a registry of
    ten entries: an update with an id outside [1, 10] returns false and
    leaves the registry as it was; an update with a valid id returns true,
    makes the entry of that id equal to the flag and leaves every other
    entry as it was; and neither an update nor a read, whatever the id,
    reaches outside the array. *)
Theorem update_node_status_spec (ns : list bool) (id : Z) (v : bool) :
  well_sized ns ->
  (is_valid_sensor_node id = true <-> 1 <= id <= 10)
  /\ (~ (1 <= id <= 10) -> update_node_status ns id v = Some (false, ns))
  /\ (1 <= id <= 10 ->
        exists ns',
          update_node_status ns id v = Some (true, ns')
          /\ well_sized ns'
          /\ get_node_status ns' id = Some v
          /\ (forall i, i <> Z.to_nat (id - 1) -> ns' !! i = ns !! i)
          /\ (forall other, other <> id ->
                get_node_status ns' other = get_node_status ns other))
  /\ update_node_status ns id v <> None
  /\ get_node_status ns id <> None.
Proof.
  intros Hsize.
  split; [apply is_valid_sensor_node_iff|].
  split; [|split; [|split]].
  - intros Hout. apply update_node_status_invalid, is_valid_sensor_node_false, Hout.
  - intros Hin. apply is_valid_sensor_node_iff in Hin.
    exists (<[Z.to_nat (id - 1) := v]> ns).
    assert (Hsize' : well_sized (<[Z.to_nat (id - 1) := v]> ns)).
    { unfold well_sized. rewrite length_insert. exact Hsize. }
    split; [apply update_node_status_valid; assumption|].
    split; [exact Hsize'|]. split; [|split].
    + destruct (get_node_status_valid _ id Hsize' Hin) as [-> _].
      apply list_lookup_insert_eq.
      apply is_valid_sensor_node_iff in Hin.
      unfold well_sized in Hsize. unfold SENSOR_NODE_NUM in *. lia.
    + intros i Hi. apply list_lookup_insert_ne. congruence.
    + intros other Hother.
      destruct (is_valid_sensor_node other) eqn:Hvalid.
      * destruct (get_node_status_valid _ other Hsize' Hvalid) as [-> _].
        destruct (get_node_status_valid _ other Hsize Hvalid) as [-> _].
        apply list_lookup_insert_ne.
        apply is_valid_sensor_node_iff in Hvalid, Hin.
        unfold SENSOR_NODE_NUM in *. lia.
      * unfold get_node_status. rewrite Hvalid. reflexivity.
  - destruct (is_valid_sensor_node id) eqn:Hvalid.
    + rewrite update_node_status_valid by assumption. discriminate.
    + rewrite update_node_status_invalid by assumption. discriminate.
  - destruct (is_valid_sensor_node id) eqn:Hvalid.
    + destruct (get_node_status_valid _ id Hsize Hvalid) as [-> [b ->]]. discriminate.
    + unfold get_node_status. rewrite Hvalid. discriminate.
Qed.

Lemma update_node_status_spec_witness :
  update_node_status node_status_init 11 true = Some (false, node_status_init)
  /\ update_node_status node_status_init 0 true = Some (false, node_status_init)
  /\ exists ns',
       update_node_status node_status_init 2 true = Some (true, ns')
       /\ get_node_status ns' 2 = Some true.
Proof.
  split; [|split].
  - destruct (update_node_status_spec node_status_init 11 true well_sized_init)
      as (_ & Hout & _).
    apply Hout. lia.
  - destruct (update_node_status_spec node_status_init 0 true well_sized_init)
      as (_ & Hout & _).
    apply Hout. lia.
  - destruct (update_node_status_spec node_status_init 2 true well_sized_init)
      as (_ & _ & Hin & _).
    destruct (Hin ltac:(lia)) as (ns' & Hupd & _ & Hget & _).
    exists ns'. split; assumption.
Defined.

Lemma vacant_entries_cons (v : bool) (ns : list bool) :
  vacant_entries (v :: ns) = ((if v then 1 else 0) + vacant_entries ns)%nat.
Proof.
  unfold vacant_entries. rewrite filter_cons.
  destruct v; destruct (decide (true = _)); try congruence; reflexivity.
Qed.

Lemma vacant_entries_le (ns : list bool) : (vacant_entries ns <= length ns)%nat.
Proof. unfold vacant_entries. apply length_filter. Qed.

(** The scan adds the number of vacant entries to the counter, as long as
    the [uint8_t] counter cannot wrap. *)
Lemma num_vacant_from_count (ns : list bool) (count : Z) :
  0 <= count -> count + Z.of_nat (length ns) < 256 ->
  num_vacant_from ns count = count + Z.of_nat (vacant_entries ns).
Proof.
  revert count. induction ns as [|v ns IH]; intros count Hlo Hhi.
  - cbn. lia.
  - cbn [num_vacant_from]. rewrite vacant_entries_cons.
    cbn [length] in Hhi. destruct v.
    + rewrite uint8_small by (unfold is_uint8; lia).
      rewrite IH by lia. lia.
    + rewrite IH by lia. lia.
Qed.

Lemma num_vacant_count (ns : list bool) :
  well_sized ns -> num_vacant ns = Z.of_nat (vacant_entries ns).
Proof.
  intros Hsize. unfold num_vacant. rewrite num_vacant_from_count.
  - lia.
  - lia.
  - unfold well_sized, SENSOR_NODE_NUM in Hsize. lia.
Qed.

(** After a sequence of calls, each entry holds the flag of the last valid
    call for its id, or what it held before when there was none. *)
Lemma run_updates_lookup (calls : list (Z * bool)) (ns : list bool) :
  well_sized ns ->
  exists ns',
    run_updates ns calls = Some ns'
    /\ well_sized ns'
    /\ forall i, (i < Z.to_nat SENSOR_NODE_NUM)%nat ->
         ns' !! i = match last_write (Z.of_nat i + 1) calls with
                    | Some v => Some v
                    | None => ns !! i
                    end.
Proof.
  revert ns. induction calls as [|[id v] calls IH]; intros ns Hsize.
  - exists ns. cbn. auto.
  - cbn [run_updates last_write].
    destruct (is_valid_sensor_node id) eqn:Hvalid.
    + rewrite update_node_status_valid by assumption.
      assert (Hsize1 : well_sized (<[Z.to_nat (id - 1) := v]> ns)).
      { unfold well_sized. rewrite length_insert. exact Hsize. }
      destruct (IH _ Hsize1) as (ns' & Hrun & Hsize' & Hlookup).
      exists ns'. split; [exact Hrun|]. split; [exact Hsize'|].
      intros i Hi. rewrite (Hlookup i Hi).
      destruct (last_write (Z.of_nat i + 1) calls); [reflexivity|].
      rewrite andb_true_r.
      apply is_valid_sensor_node_iff in Hvalid.
      unfold well_sized, SENSOR_NODE_NUM in *.
      destruct (Z.eqb_spec id (Z.of_nat i + 1)) as [->|Hne].
      * replace (Z.to_nat (Z.of_nat i + 1 - 1)) with i by lia.
        apply list_lookup_insert_eq. lia.
      * apply list_lookup_insert_ne. lia.
    + rewrite update_node_status_invalid by assumption.
      destruct (IH _ Hsize) as (ns' & Hrun & Hsize' & Hlookup).
      exists ns'. split; [exact Hrun|]. split; [exact Hsize'|].
      intros i Hi. rewrite (Hlookup i Hi).
      rewrite ?andb_false_r.
      destruct (last_write (Z.of_nat i + 1) calls); reflexivity.
Qed.

Lemma vacant_entries_fmap {A} (f : A -> bool) (l : list A) :
  vacant_entries (f <$> l) = length (filter (fun x => f x = true) l).
Proof.
  induction l as [|x l IH]; [reflexivity|].
  rewrite fmap_cons, vacant_entries_cons, filter_cons, IH.
  destruct (decide (f x = true)) as [->|Hf]; [reflexivity|].
  destruct (f x); [congruence|reflexivity].
Qed.

(** Started from the initial registry, a sequence of calls leaves the
    list of the last written flags of the ids 1 to 10, false where none
    was written. *)
Lemma run_updates_init (calls : list (Z * bool)) :
  run_updates node_status_init calls =
  Some ((fun id => default false (last_write id calls)) <$> sensor_ids).
Proof.
  destruct (run_updates_lookup calls node_status_init well_sized_init)
    as (ns' & -> & Hsize' & Hlookup).
  f_equal. apply list_eq. intros i.
  rewrite list_lookup_fmap. unfold sensor_ids, SENSOR_NODE_NUM in *.
  destruct (decide (i < 10)%nat) as [Hi|Hi].
  - rewrite (Hlookup i) by lia.
    rewrite lookup_seqZ_lt by lia. cbn [fmap option_fmap option_map].
    replace (1 + Z.of_nat i) with (Z.of_nat i + 1) by lia.
    destruct (last_write (Z.of_nat i + 1) calls); [reflexivity|].
    unfold node_status_init. cbn [default].
    apply lookup_replicate_2. unfold SENSOR_NODE_NUM. lia.
  - rewrite lookup_seqZ_ge by lia. cbn.
    apply lookup_ge_None. unfold well_sized, SENSOR_NODE_NUM in Hsize'. lia.
Qed.

(** C9.  At startup every entry of the registry is false (occupied).  After
    any sequence of update calls made from there, the registry still has
    its ten entries and [num_vacant] returns the number of entries that
    are marked vacant, which is the number of sensor nodes whose last valid
    update wrote vacant.  With the ids 1, 3 and 5 marked vacant and nothing
    else, [num_vacant] returns 3. *)
Theorem num_vacant_spec :
  Forall (eq false) node_status_init
  /\ well_sized node_status_init
  /\ num_vacant node_status_init = 0
  /\ (forall calls,
        exists ns,
          run_updates node_status_init calls = Some ns
          /\ well_sized ns
          /\ num_vacant ns = Z.of_nat (vacant_entries ns)
          /\ num_vacant ns = Z.of_nat (length (vacant_ids calls)))
  /\ (exists ns,
        run_updates node_status_init [(1, true); (3, true); (5, true)] = Some ns
        /\ ns = [true; false; true; false; true; false; false; false; false; false]
        /\ num_vacant ns = 3).
Proof.
  split; [repeat constructor|]. split; [reflexivity|]. split; [reflexivity|].
  split.
  - intros calls.
    destruct (run_updates_lookup calls node_status_init well_sized_init)
      as (ns & Hrun & Hsize & _).
    exists ns. split; [exact Hrun|]. split; [exact Hsize|].
    split; [apply num_vacant_count, Hsize|].
    rewrite num_vacant_count by exact Hsize.
    assert (ns = (fun id => default false (last_write id calls)) <$> sensor_ids)
      as -> by (rewrite run_updates_init in Hrun; congruence).
    rewrite vacant_entries_fmap. unfold vacant_ids. f_equal. f_equal.
    apply list_filter_iff. intros id.
    destruct (last_write id calls) as [[|]|]; cbn; split; congruence.
  - eexists. split; [reflexivity|]. split; reflexivity.
Qed.

End BaseStationFacts.

(** * Further properties of the code *)

(** ** Addresses and channels over the whole id type *)

Lemma calculate_radio_address_range (a : Z) :
  is_uint8 a -> 0 < calculate_radio_address a < 2 ^ 32.
Proof.
  intros Ha. destruct (Z.eq_dec a BASE_STATION_ID) as [->|Hne].
  - rewrite calculate_radio_address_base. unfold BASE_STATION_ADDRESS. lia.
  - rewrite calculate_radio_address_general, repeat_byte_address_mul by assumption.
    unfold is_uint8, BASE_STATION_ID in *. lia.
Qed.

Lemma calculate_radio_address_inj (a b : Z) :
  is_uint8 a -> is_uint8 b ->
  calculate_radio_address a = calculate_radio_address b -> a = b.
Proof.
  intros Ha Hb.
  destruct (Z.eq_dec a BASE_STATION_ID) as [->|Hna];
    destruct (Z.eq_dec b BASE_STATION_ID) as [->|Hnb].
  - reflexivity.
  - rewrite (calculate_radio_address_general b) by assumption.
    rewrite calculate_radio_address_base. intros Heq. symmetry in Heq.
    destruct (repeat_byte_address_not_sentinel b Hb Heq).
  - rewrite (calculate_radio_address_general a) by assumption.
    rewrite calculate_radio_address_base. intros Heq.
    destruct (repeat_byte_address_not_sentinel a Ha Heq).
  - rewrite !calculate_radio_address_general by assumption.
    apply repeat_byte_address_inj; assumption.
Qed.

(** X1.  Over all [uint8_t] ids, the base station's included, the derived
    address fits 32 bits, is never the address 0x00000000 that the radio
    does not accept, and is different for different ids. *)
Theorem calculate_radio_address_total (a b : Z) :
  is_uint8 a -> is_uint8 b ->
  0 < calculate_radio_address a < 2 ^ 32
  /\ (calculate_radio_address a = calculate_radio_address b -> a = b).
Proof.
  intros Ha Hb. split.
  - apply calculate_radio_address_range, Ha.
  - apply calculate_radio_address_inj; assumption.
Qed.

Lemma calculate_radio_address_total_witness :
  0 < calculate_radio_address 255 < 2 ^ 32
  /\ (calculate_radio_address 255 = calculate_radio_address 0 -> 255 = 0).
Proof.
  apply (calculate_radio_address_total 255 0); unfold is_uint8; lia.
Defined.

(** Multiplying the channel by 205 gives the id back: 5 * 205 = 1025 is
    1 modulo 256. *)
Lemma calculate_radio_channel_inverse (id : Z) :
  is_uint8 id -> uint8 (205 * calculate_radio_channel id) = id.
Proof.
  intros Hid. apply Z.eqb_eq.
  apply (uint8_cases (fun i => uint8 (205 * calculate_radio_channel i) =? i));
    [vm_compute; reflexivity | exact Hid].
Qed.

Lemma calculate_radio_channel_inj (a b : Z) :
  is_uint8 a -> is_uint8 b ->
  calculate_radio_channel a = calculate_radio_channel b -> a = b.
Proof.
  intros Ha Hb Heq.
  rewrite <- (calculate_radio_channel_inverse a Ha),
          <- (calculate_radio_channel_inverse b Hb), Heq.
  reflexivity.
Qed.

(** X2.  Over all [uint8_t] ids the derived channel is a [uint8_t] and is
    different for different ids, the wrap-around notwithstanding; among
    the ids whose product does not wrap (up to 51) the channel is a legal
    one, at most 125, exactly for the ids up to 25. *)
Theorem calculate_radio_channel_total (a b : Z) :
  is_uint8 a -> is_uint8 b ->
  is_uint8 (calculate_radio_channel a)
  /\ (calculate_radio_channel a = calculate_radio_channel b -> a = b)
  /\ (a <= 51 -> (calculate_radio_channel a <= RF24_CHANNEL_MAX <-> a <= 25)).
Proof.
  intros Ha Hb. split; [apply uint8_is_uint8|]. split.
  - apply calculate_radio_channel_inj; assumption.
  - intros Hle. rewrite calculate_radio_channel_exact by (unfold is_uint8 in Ha; lia).
    unfold RF24_CHANNEL_SPACING, RF24_CHANNEL_MAX. lia.
Qed.

Lemma calculate_radio_channel_total_witness :
  is_uint8 (calculate_radio_channel 26)
  /\ (calculate_radio_channel 26 = calculate_radio_channel 200 -> 26 = 200)
  /\ (calculate_radio_channel 26 <= RF24_CHANNEL_MAX <-> 26 <= 25).
Proof.
  destruct (calculate_radio_channel_total 26 200) as (Hu & Hinj & Hlegal);
    [unfold is_uint8; lia..|].
  split; [exact Hu|]. split; [exact Hinj|]. apply Hlegal. lia.
Defined.

(** ** Polling the sensor *)

Lemma mapped_status_known (status : Z) (s : tof_sensor_status_t) :
  mapped_status status = Some s -> s <> UNKNOWN.
Proof.
  destruct (mapped_status_cases status) as [[_ ->]|[[_ ->]|(_ & _ & ->)]];
    intros [= <-] || intros [=]; discriminate.
Qed.

(** X3.  A change is reported once: polling again with the same range
    status returns false and leaves the node as the first poll left it.
    A poll that reports a change leaves the status occupied or vacant,
    never unknown, and a status that is known never becomes unknown. *)
Theorem is_sensor_status_changed_once (status : Z) (this : SensorNode) :
  let this' := snd (is_sensor_status_changed status this) in
  is_sensor_status_changed status this' = (false, this')
  /\ (fst (is_sensor_status_changed status this) = true ->
        sensor_status this' <> UNKNOWN)
  /\ (sensor_status this <> UNKNOWN -> sensor_status this' <> UNKNOWN).
Proof.
  cbv zeta. rewrite !is_sensor_status_changed_mapped.
  destruct (mapped_status status) as [s|] eqn:Hmapped; cbn [fst snd].
  - pose proof (mapped_status_known _ _ Hmapped) as Hknown.
    destruct (tof_sensor_status_eqb s (sensor_status this)) eqn:E; cbn [fst snd].
    + rewrite E. repeat split; [discriminate | auto].
    + cbn [sensor_status set_sensor_status].
      replace (tof_sensor_status_eqb s s) with true
        by (symmetry; apply tof_sensor_status_eqb_spec; reflexivity).
      repeat split; auto.
  - repeat split; [discriminate | auto].
Qed.

Lemma is_sensor_status_changed_once_witness :
  sensor_status (snd (is_sensor_status_changed 7 (SensorNode_new 2))) <> UNKNOWN
  /\ sensor_status (snd (is_sensor_status_changed 11 Scenario2.node2_occupied))
     <> UNKNOWN.
Proof.
  split.
  - destruct (is_sensor_status_changed_once 7 (SensorNode_new 2)) as (_ & H & _).
    apply H. reflexivity.
  - destruct (is_sensor_status_changed_once 11 Scenario2.node2_occupied)
      as (_ & _ & H).
    apply H. discriminate.
Defined.

Lemma poll_statuses_cons (status : Z) (rest : list Z) (this : SensorNode) :
  poll_statuses (status :: rest) this =
  (fst (is_sensor_status_changed status this)
     :: fst (poll_statuses rest (snd (is_sensor_status_changed status this))),
   snd (poll_statuses rest (snd (is_sensor_status_changed status this)))).
Proof.
  cbn [poll_statuses].
  destruct (is_sensor_status_changed status this) as [changed this'].
  cbn [fst snd]. destruct (poll_statuses rest this'). reflexivity.
Qed.

Lemma is_sensor_status_changed_status (status : Z) (this : SensorNode) :
  sensor_status (snd (is_sensor_status_changed status this)) =
  default (sensor_status this) (mapped_status status).
Proof.
  rewrite is_sensor_status_changed_mapped.
  destruct (mapped_status status) as [s|]; [|reflexivity].
  destruct (tof_sensor_status_eqb s (sensor_status this)) eqn:E; [|reflexivity].
  apply tof_sensor_status_eqb_spec in E. cbn. congruence.
Qed.

Lemma is_sensor_status_changed_fields (status : Z) (this : SensorNode) :
  let this' := snd (is_sensor_status_changed status this) in
  node_id this' = node_id this
  /\ radio_address this' = radio_address this
  /\ radio_channel this' = radio_channel this.
Proof.
  cbv zeta. rewrite is_sensor_status_changed_mapped.
  destruct (mapped_status status) as [s|]; [|auto].
  destruct (tof_sensor_status_eqb s (sensor_status this)); auto.
Qed.

(** X4.  After any series of polls the stored status is the one that the
    last conclusive reading maps to, or the status before the series when
    no reading was conclusive; there is one result per reading, and the
    id, the address and the channel of the node are as before. *)
Theorem poll_statuses_last (statuses : list Z) (this : SensorNode) :
  let this' := snd (poll_statuses statuses this) in
  sensor_status this' = default (sensor_status this) (last_conclusive statuses)
  /\ length (fst (poll_statuses statuses this)) = length statuses
  /\ node_id this' = node_id this
  /\ radio_address this' = radio_address this
  /\ radio_channel this' = radio_channel this.
Proof.
  cbv zeta. revert this. induction statuses as [|status rest IH]; intros this.
  - cbn. auto.
  - rewrite poll_statuses_cons. cbn [fst snd length last_conclusive].
    destruct (IH (snd (is_sensor_status_changed status this)))
      as (Hstatus & Hlen & Hid & Haddr & Hch).
    destruct (is_sensor_status_changed_fields status this) as (Hid1 & Haddr1 & Hch1).
    rewrite Hstatus, Hlen, Hid, Haddr, Hch, Hid1, Haddr1, Hch1.
    rewrite is_sensor_status_changed_status.
    destruct (last_conclusive rest); auto.
Qed.

(** ** Starting the node *)

Lemma init_emitted (this : SensorNode) (env : Env) (w : World) :
  emitted (init this) env w =
  if negb (sensor_begins env) then [EvSensorBegin false]
  else if negb (radio_begins env) then [EvSensorBegin true; EvRadioBegin false]
  else [EvSensorBegin true; EvRadioBegin true;
        EvConfigure EnableDynamicPayloads;
        EvConfigure (SetAutoAck true);
        EvConfigure (SetRetries FAILED_SEND_DELAY MAX_SEND_ATTEMPTS);
        EvConfigure (SetAddressWidth RF24_ADDRESS_WIDTH);
        EvConfigure SetPALevelMax;
        EvSetChannel (radio_channel this);
        EvOpenReadingPipe RF24_READING_PIPE (radio_address this);
        EvStartListening].
Proof.
  apply emitted_app.
  unfold init, bind, sensor_begin, Radio.begin, Radio.configure,
    Radio.setChannel, Radio.openReadingPipe, Radio.startListening, ret.
  destruct (sensor_begins env); cbn; [|reflexivity].
  destruct (radio_begins env); cbn; [|rewrite <- !app_assoc; reflexivity].
  rewrite <- !app_assoc. reflexivity.
Qed.

(** X5.  [init] returns true exactly when the sensor and the radio both
    start.  It then leaves the radio in its resting configuration: on the
    node's own channel, the reading pipe open on the node's own address,
    listening, with automatic acknowledgment on and the retries set to 15
    attempts 15 units apart; listening starts only after the channel and
    the pipe are set. *)
Theorem init_success (this : SensorNode) (env : Env) (w : World) :
  (fst (init this env w) = true <->
   sensor_begins env = true /\ radio_begins env = true)
  /\ (fst (init this env w) = true ->
        at_rest this (radio (snd (init this env w)))
        /\ emitted (init this) env w =
           [EvSensorBegin true; EvRadioBegin true;
            EvConfigure EnableDynamicPayloads;
            EvConfigure (SetAutoAck true);
            EvConfigure (SetRetries 15 15);
            EvConfigure (SetAddressWidth 4);
            EvConfigure SetPALevelMax;
            EvSetChannel (radio_channel this);
            EvOpenReadingPipe 1 (radio_address this);
            EvStartListening]).
Proof.
  split.
  - unfold init, bind, sensor_begin, Radio.begin, Radio.configure,
      Radio.setChannel, Radio.openReadingPipe, Radio.startListening, ret.
    destruct (sensor_begins env); cbn; [|split; [discriminate | intros [? _]; discriminate]].
    destruct (radio_begins env); cbn; [tauto|].
    split; [discriminate | intros [_ ?]; discriminate].
  - intros Hok. split; [apply init_at_rest, Hok|].
    rewrite init_emitted. revert Hok.
    unfold init, bind, sensor_begin, Radio.begin, ret.
    destruct (sensor_begins env); cbn; [|discriminate].
    destruct (radio_begins env); cbn; [reflexivity|discriminate].
Qed.

Lemma init_success_witness :
  at_rest Scenario.node2
    (radio (snd (init Scenario.node2 (Scenario.env_idle true)
                   (Scenario.world_of Scenario.radio_not_started)))).
Proof.
  destruct (init_success Scenario.node2 (Scenario.env_idle true)
              (Scenario.world_of Scenario.radio_not_started)) as [_ Hok].
  apply Hok. reflexivity.
Defined.

(** X6.  When [init] returns false the radio is as it was: no setting
    applied, not retuned, no pipe opened, listening not started.  When it
    is the sensor that does not start, the radio is not even asked to
    start. *)
Theorem init_failure (this : SensorNode) (env : Env) (w : World) :
  fst (init this env w) = false ->
  radio (snd (init this env w)) = radio w
  /\ (emitted (init this) env w = [EvSensorBegin false]
      \/ emitted (init this) env w = [EvSensorBegin true; EvRadioBegin false])
  /\ (sensor_begins env = false ->
        emitted (init this) env w = [EvSensorBegin false]).
Proof.
  rewrite init_emitted.
  unfold init, bind, sensor_begin, Radio.begin, Radio.configure,
    Radio.setChannel, Radio.openReadingPipe, Radio.startListening, ret.
  destruct (sensor_begins env); cbn; [|auto].
  destruct (radio_begins env); cbn; [discriminate|].
  intros _. split; [reflexivity|]. split; [auto | discriminate].
Qed.

Lemma init_failure_witness :
  radio (snd (init Scenario.node2 Scenario2.env_radio_dead
                (Scenario.world_of Scenario.radio_not_started)))
  = Scenario.radio_not_started
  /\ emitted (init Scenario.node2) Scenario.env_sensor_dead
       (Scenario.world_of Scenario.radio_not_started) = [EvSensorBegin false].
Proof.
  split.
  - apply (init_failure Scenario.node2 Scenario2.env_radio_dead
             (Scenario.world_of Scenario.radio_not_started)).
    reflexivity.
  - destruct (init_failure Scenario.node2 Scenario.env_sensor_dead
                (Scenario.world_of Scenario.radio_not_started) eq_refl)
      as (_ & _ & H).
    apply H. reflexivity.
Defined.

(** ** The carrier-sense loop, probe by probe *)

(** The account of one run of the loop: what it adds to the trace, how
    many probes it makes, which of them found a carrier, and how many
    delays it takes. *)
Lemma carrier_sense_loop_account (n : nat) (env : Env) (w : World) :
  let w' := snd (carrier_sense_loop n env w) in
  let open := fst (carrier_sense_loop n env w) in
  exists evs,
    trace w' = trace w ++ evs
    /\ forallb is_loop_event evs = true
    /\ Forall (fun d => 25 <= d <= 99) (delays evs)
    /\ (probes w' <= probes w + n)%nat
    /\ (open = false -> probes w' = (probes w + n)%nat)
    /\ (open = true ->
          (probes w < probes w')%nat /\ carrier_at env (pred (probes w')) = false)
    /\ (forall k, (probes w <= k)%nat ->
          (k + (if open then 1 else 0) < probes w')%nat ->
          carrier_at env k = true)
    /\ (probes w + length (delays evs) + (if open then 1 else 0))%nat = probes w'.
Proof.
  cbv zeta. revert w. induction n as [|n IH]; intros w.
  - exists []. unfold carrier_sense_loop, ret. cbn [fst snd delays omap length].
    rewrite app_nil_r.
    repeat split; try constructor; try lia; try discriminate.
    cbn. lia.
  - unfold carrier_sense_loop; fold carrier_sense_loop.
    unfold bind, Radio.testCarrier, Arduino.random, Arduino.delay, ret.
    destruct (carrier_at env (probes w)) eqn:Hcarrier; cbn [negb].
    + match goal with
      | |- context [carrier_sense_loop n env ?w3] =>
          destruct (IH w3)
            as (evs & Htrace & Hloop & Hdelays & Hle & Hbusy & Hidle & Hbefore & Hcount)
      end.
      cbn [trace log probes] in Htrace, Hle, Hbusy, Hidle, Hbefore, Hcount.
      destruct (carrier_sense_loop n env _) as [open w4]; cbn [fst snd] in *.
      eexists (EvTestCarrier true :: EvRandom _ _ _ :: EvDelay _ :: evs).
      split; [rewrite Htrace, <- !app_assoc; reflexivity|].
      split; [exact Hloop|].
      split; [cbn; constructor; [apply backoff_range | exact Hdelays]|].
      split; [lia|]. split; [intros Ho; specialize (Hbusy Ho); lia|].
      split; [intros Ho; destruct (Hidle Ho); split; [lia | assumption]|].
      split.
      * intros k Hlo Hhi.
        destruct (decide (k = probes w)) as [->|Hne]; [exact Hcarrier|].
        apply Hbefore; lia.
      * change (length (delays (EvTestCarrier true :: EvRandom ?a ?b ?c
                                  :: EvDelay ?d :: evs)))
          with (S (length (delays evs))).
        lia.
    + cbn [fst snd trace log probes].
      exists [EvTestCarrier false].
      repeat split; try constructor; try lia; try discriminate.
      * exact Hcarrier.
      * cbn. lia.
Qed.


Lemma loop_events_written (evs : list event) :
  forallb is_loop_event evs = true -> written evs = [].
Proof.
  induction evs as [|e evs IH]; [reflexivity|].
  cbn [forallb]. intros [He Hrest]%andb_true_iff.
  destruct e; try discriminate He; cbn; apply IH, Hrest.
Qed.

Lemma written_app (evs1 evs2 : list event) :
  written (evs1 ++ evs2) = written evs1 ++ written evs2.
Proof. unfold written. apply omap_app. Qed.

(** The account of one call of [transmit_update]. *)
Lemma transmit_update_account (this : SensorNode) (msg : UpdateMessage)
    (env : Env) (w : World) :
  let res := transmit_update this msg env w in
  let idle := finds_idle env (probes w) CHANNEL_CHECKS_MAX in
  exists loop_evs,
    emitted (transmit_update this msg) env w =
      EvSetChannel (calculate_radio_channel (get_rx_id (header msg)))
      :: loop_evs
      ++ (if idle then send_calls this msg (acked_at env (frames w))
          else abort_calls this)
    /\ forallb is_loop_event loop_evs = true
    /\ Forall (fun d => 25 <= d <= 99) (delays loop_evs)
    /\ delays (emitted (transmit_update this msg) env w) = delays loop_evs
    /\ (probes (snd res) <= probes w + CHANNEL_CHECKS_MAX)%nat
    /\ (idle = false -> probes (snd res) = (probes w + CHANNEL_CHECKS_MAX)%nat)
    /\ (idle = true ->
          (probes w < probes (snd res))%nat
          /\ carrier_at env (pred (probes (snd res))) = false)
    /\ (forall k, (probes w <= k)%nat ->
          (k + (if idle then 1 else 0) < probes (snd res))%nat ->
          carrier_at env k = true)
    /\ (probes w + length (delays loop_evs) + (if idle then 1 else 0))%nat
       = probes (snd res)
    /\ frames (snd res) = (frames w + (if idle then 1 else 0))%nat
    /\ rf_rx_fifo (radio (snd res)) = rf_rx_fifo (radio w)
    /\ rf_writing_pipe (radio (snd res)) =
       (if idle then Some (calculate_radio_address (get_rx_id (header msg)))
        else rf_writing_pipe (radio w)).
Proof.
  cbv zeta.
  unfold emitted, transmit_update, bind, Radio.setChannel, Radio.stopListening,
    Radio.closeReadingPipe, Radio.openWritingPipe, Radio.write,
    Radio.openReadingPipe, Radio.startListening, ret.
  match goal with
  | |- context [carrier_sense_loop ?n env ?w1] =>
      destruct (carrier_sense_loop_account n env w1)
        as (evs & Htrace & Hloop & Hdelays & Hle & Hbusy & Hidle & Hbefore & Hcount);
      destruct (carrier_sense_loop_effect n env w1) as (Hradio & Hframes & Hres & _);
      destruct (carrier_sense_loop n env w1) as [is_channel_open w2]
  end.
  cbn [fst snd radio frames probes trace log set_radio]
    in Htrace, Hle, Hbusy, Hidle, Hbefore, Hcount, Hradio, Hframes, Hres.
  rewrite <- Hres. clear Hres.
  exists evs.
  destruct is_channel_open;
    cbn [negb fst snd radio trace log set_radio probes frames
         rf_rx_fifo rf_writing_pipe Radio.set_listening].
  - rewrite Htrace, Hframes, Hradio. cbn [rf_rx_fifo].
    split.
    { rewrite <- !app_assoc. rewrite drop_app_length. reflexivity. }
    split; [exact Hloop|]. split; [exact Hdelays|].
    split.
    { rewrite <- !app_assoc. rewrite drop_app_length.
      change (delays (?a ++ ?b)) with (delays (a ++ b)).
      cbn [app]. change (delays (EvSetChannel ?c :: ?l)) with (delays l).
      rewrite delays_app. cbn. apply app_nil_r. }
    destruct (Hidle eq_refl) as [Hlt Hlast].
    repeat split; auto; lia.
  - rewrite Htrace, Hframes, Hradio. cbn [rf_rx_fifo rf_writing_pipe].
    split.
    { rewrite <- !app_assoc. rewrite drop_app_length. reflexivity. }
    split; [exact Hloop|]. split; [exact Hdelays|].
    split.
    { rewrite <- !app_assoc. rewrite drop_app_length.
      cbn [app]. change (delays (EvSetChannel ?c :: ?l)) with (delays l).
      rewrite delays_app. cbn. apply app_nil_r. }
    specialize (Hbusy eq_refl).
    repeat split; auto; try lia; discriminate.
Qed.

(** ** One call of the transmit protocol *)

Lemma transmit_update_written (this : SensorNode) (msg : UpdateMessage)
    (env : Env) (w : World) :
  written (emitted (transmit_update this msg) env w) =
  (if finds_idle env (probes w) CHANNEL_CHECKS_MAX then [msg] else []).
Proof.
  destruct (transmit_update_account this msg env w) as (evs & Hshape & Hloop & _).
  rewrite Hshape.
  change (written (EvSetChannel ?c :: ?l)) with (written l).
  rewrite written_app, (loop_events_written _ Hloop).
  destruct (finds_idle env (probes w) CHANNEL_CHECKS_MAX); reflexivity.
Qed.

(** X7.  A call of [transmit_update] returns true exactly when one of its
    ten probes finds the channel idle and the frame is then acknowledged.
    It hands exactly one frame to the radio, the message it was given,
    when a probe finds the channel idle, and none otherwise; it never
    takes anything off the receive queue; the writing pipe is opened on
    the receiver's address when a frame is sent and is left as it was
    otherwise. *)
Theorem transmit_update_outcome (this : SensorNode) (msg : UpdateMessage)
    (env : Env) (w : World) :
  let res := transmit_update this msg env w in
  let idle := finds_idle env (probes w) CHANNEL_CHECKS_MAX in
  fst res = idle && acked_at env (frames w)
  /\ written (emitted (transmit_update this msg) env w) = (if idle then [msg] else [])
  /\ frames (snd res) = (frames w + (if idle then 1 else 0))%nat
  /\ rf_rx_fifo (radio (snd res)) = rf_rx_fifo (radio w)
  /\ rf_writing_pipe (radio (snd res)) =
     (if idle then Some (calculate_radio_address (get_rx_id (header msg)))
      else rf_writing_pipe (radio w)).
Proof.
  cbv zeta.
  destruct (transmit_update_effect this msg env w) as (_ & _ & _ & Hres & _).
  destruct (transmit_update_account this msg env w)
    as (evs & _ & _ & _ & _ & _ & _ & _ & _ & _ & Hframes & Hfifo & Hpipe).
  split; [exact Hres|]. split; [apply transmit_update_written | auto].
Qed.

(** X8.  The calls that [transmit_update] makes, in order: it retunes to
    the receiver's channel, then only probes, draws and delays, then
    either the abort sequence (own channel, own reading pipe) or the send
    sequence (stop listening, close the reading pipe, open the writing
    pipe on the receiver's address, write the frame, own channel, own
    reading pipe, start listening).  So every probe is made on the
    receiver's channel, and the frame is written on that channel with the
    radio not listening. *)
Theorem transmit_update_order (this : SensorNode) (msg : UpdateMessage)
    (env : Env) (w : World) :
  exists loop_evs,
    forallb is_loop_event loop_evs = true
    /\ emitted (transmit_update this msg) env w =
       EvSetChannel (calculate_radio_channel (get_rx_id (header msg)))
       :: loop_evs
       ++ (if finds_idle env (probes w) CHANNEL_CHECKS_MAX
           then send_calls this msg (acked_at env (frames w))
           else abort_calls this).
Proof.
  destruct (transmit_update_account this msg env w) as (evs & Hshape & Hloop & _).
  exists evs. split; assumption.
Qed.



(** ** Reporting the status *)

Lemma transmit_update_to_written (this : SensorNode) (rx_node_id : Z)
    (env : Env) (w : World) :
  written (emitted (transmit_update_to this rx_node_id) env w) =
    (if finds_idle env (probes w) CHANNEL_CHECKS_MAX
     then [ {| header := {| rx_id := uint8 rx_node_id;
                            tx_id := uint8 (node_id this);
                            msg_type := UPDATE |};
               um_node_id := uint8 (node_id this);
               is_vacant := match sensor_status this with
                            | VACANT => true
                            | OCCUPIED | UNKNOWN => false
                            end |} ]
     else []).
Proof.
  unfold transmit_update_to.
  rewrite transmit_update_written. unfold UpdateMessage_new, Message_new.
  destruct (sensor_status this); reflexivity.
Qed.

(** X10.  [transmit_update(rx_node_id)] sends at most one frame, and the
    frame it sends is an update addressed to [rx_node_id] that names the
    node as sender and as subject and says vacant exactly when the stored
    status is vacant: an occupied and an unknown status are both reported
    as not vacant.  The call first retunes to the channel derived from
    [rx_node_id]. *)
Theorem transmit_update_to_frame (this : SensorNode) (rx_node_id : Z)
    (env : Env) (w : World) :
  written (emitted (transmit_update_to this rx_node_id) env w) =
    (if finds_idle env (probes w) CHANNEL_CHECKS_MAX
     then [ {| header := {| rx_id := uint8 rx_node_id;
                            tx_id := uint8 (node_id this);
                            msg_type := UPDATE |};
               um_node_id := uint8 (node_id this);
               is_vacant := match sensor_status this with
                            | VACANT => true
                            | OCCUPIED | UNKNOWN => false
                            end |} ]
     else [])
  /\ head (emitted (transmit_update_to this rx_node_id) env w) =
     Some (EvSetChannel (calculate_radio_channel (uint8 rx_node_id))).
Proof.
  split; [apply transmit_update_to_written|].
  unfold transmit_update_to.
  set (msg := UpdateMessage_new rx_node_id (node_id this) (node_id this) _).
  destruct (transmit_update_account this msg env w) as (evs & Hshape & _).
  rewrite Hshape. reflexivity.
Qed.

(** X11.  Poll, then report: when a poll reports a change, the update sent
    next says vacant exactly when the range status of that poll was "no
    convergence", and it names the polled node as sender. *)
Theorem poll_then_transmit (status : Z) (this : SensorNode) (rx_node_id : Z)
    (env : Env) (w : World) (frame : UpdateMessage) :
  fst (is_sensor_status_changed status this) = true ->
  frame ∈ written (emitted (transmit_update_to
                              (snd (is_sensor_status_changed status this))
                              rx_node_id) env w) ->
  is_vacant frame = (status =? VL6180X_ERROR_NOCONVERGE)
  /\ tx_id (header frame) = uint8 (node_id this)
  /\ rx_id (header frame) = uint8 rx_node_id.
Proof.
  intros Hchanged Hin.
  rewrite transmit_update_to_written in Hin.
  destruct (finds_idle env (probes w) CHANNEL_CHECKS_MAX);
    [|apply elem_of_nil in Hin; contradiction].
  apply list_elem_of_singleton in Hin. subst frame. cbn [is_vacant header tx_id rx_id].
  destruct (is_sensor_status_changed_fields status this) as (-> & _ & _).
  split; [|auto].
  rewrite is_sensor_status_changed_status.
  revert Hchanged. rewrite is_sensor_status_changed_mapped.
  destruct (mapped_status_cases status) as [[-> ->]|[[-> ->]|(_ & _ & ->)]];
    cbn; [reflexivity | reflexivity | discriminate].
Qed.

Lemma poll_then_transmit_witness :
  is_vacant (UpdateMessage_new 0 2 2 true) = (7 =? VL6180X_ERROR_NOCONVERGE)
  /\ tx_id (header (UpdateMessage_new 0 2 2 true)) = uint8 (node_id Scenario2.node2_occupied)
  /\ rx_id (header (UpdateMessage_new 0 2 2 true)) = uint8 0.
Proof.
  apply (poll_then_transmit 7 Scenario2.node2_occupied 0
           (Scenario.env_idle true) Scenario2.world_started).
  - reflexivity.
  - vm_compute. apply list_elem_of_here.
Defined.

(** ** The receive path *)

Lemma read_message_radio (buffer : list Z) (len : Z) (env : Env) (w : World) :
  let r' := radio (snd (read_message buffer len env w)) in
  rf_channel r' = rf_channel (radio w)
  /\ rf_reading_pipes r' = rf_reading_pipes (radio w)
  /\ rf_writing_pipe r' = rf_writing_pipe (radio w)
  /\ rf_listening r' = rf_listening (radio w).
Proof.
  cbv zeta. unfold read_message, bind, Radio.available, Radio.read, ret.
  destruct (rf_rx_fifo (radio w)); cbn; auto.
Qed.


(** ** A node in use *)

Lemma at_rest_same_config (this this' : SensorNode) (r : RF24) :
  radio_address this' = radio_address this ->
  radio_channel this' = radio_channel this ->
  at_rest this r -> at_rest this' r.
Proof.
  unfold at_rest, own_channel, own_pipe_open. intros -> ->. auto.
Qed.

Lemma run_call_at_rest (this : SensorNode) (c : call) (env : Env) (w : World) :
  at_rest this (radio w) ->
  at_rest (fst (run_call this c env w)) (radio (snd (run_call this c env w)))
  /\ node_id (fst (run_call this c env w)) = node_id this
  /\ radio_address (fst (run_call this c env w)) = radio_address this
  /\ radio_channel (fst (run_call this c env w)) = radio_channel this.
Proof.
  intros Hrest. destruct c as [status|msg|rx| |buffer len]; unfold run_call.
  - unfold ret. cbn [fst snd].
    destruct (is_sensor_status_changed_fields status this) as (Hid & Haddr & Hch).
    split; [|auto]. apply (at_rest_same_config this); assumption.
  - unfold bind, ret.
    destruct (transmit_update_effect this msg env w) as (Hc & Hp & Hl & _).
    destruct (transmit_update this msg env w) as [is_sent w']. cbn [fst snd] in *.
    split; [|auto]. destruct Hrest as (_ & _ & Hlisten).
    rewrite Hlisten, orb_true_r in Hl. repeat split; assumption.
  - unfold transmit_update_to, bind, ret.
    match goal with
    | |- context [transmit_update this ?msg env w] =>
        destruct (transmit_update_effect this msg env w) as (Hc & Hp & Hl & _);
        destruct (transmit_update this msg env w) as [is_sent w']
    end.
    cbn [fst snd] in *.
    split; [|auto]. destruct Hrest as (_ & _ & Hlisten).
    rewrite Hlisten, orb_true_r in Hl. repeat split; assumption.
  - unfold bind, ret, is_message, Radio.available. cbn. auto.
  - unfold bind, ret.
    destruct (read_message_radio buffer len env w) as (Hc & Hp & _ & Hl).
    destruct (read_message buffer len env w) as [res w']. cbn [fst snd] in *.
    split; [|auto]. unfold at_rest, own_channel, own_pipe_open in *.
    rewrite Hc, Hp, Hl. exact Hrest.
Qed.

(** X13.  The resting configuration is an invariant of the node: from a
    radio on the node's own channel, with the reading pipe open on the
    node's own address and listening (the state that a successful [init]
    leaves), any series of polls, transmissions and reads, whatever their
    outcomes, ends with the radio in that configuration again, and the id,
    the address and the channel of the node never change. *)
Theorem run_calls_at_rest (this : SensorNode) (calls : list call)
    (env : Env) (w : World) :
  at_rest this (radio w) ->
  at_rest (fst (run_calls this calls env w)) (radio (snd (run_calls this calls env w)))
  /\ node_id (fst (run_calls this calls env w)) = node_id this
  /\ radio_address (fst (run_calls this calls env w)) = radio_address this
  /\ radio_channel (fst (run_calls this calls env w)) = radio_channel this.
Proof.
  revert this w. induction calls as [|c calls IH]; intros this w Hrest.
  - cbn. auto.
  - cbn [run_calls]. unfold bind.
    destruct (run_call_at_rest this c env w Hrest) as (Hrest1 & Hid & Haddr & Hch).
    destruct (run_call this c env w) as [this1 w1]. cbn [fst snd] in *.
    destruct (IH this1 w1 Hrest1) as (Hrest2 & Hid2 & Haddr2 & Hch2).
    split; [exact Hrest2|]. split; [|split]; congruence.
Qed.

Lemma run_calls_at_rest_witness :
  let this := Scenario.node2 in
  let env := Scenario2.env_idle_after 12 3 in
  let w := snd (init this env (Scenario.world_of Scenario.radio_not_started)) in
  let calls := [CallPoll 7; CallTransmitTo 0; CallIsMessage;
                CallReadMessage [0; 0] 2; CallPoll 0; CallTransmitTo 0] in
  at_rest (fst (run_calls this calls env w)) (radio (snd (run_calls this calls env w)))
  /\ node_id (fst (run_calls this calls env w)) = node_id this
  /\ radio_address (fst (run_calls this calls env w)) = radio_address this
  /\ radio_channel (fst (run_calls this calls env w)) = radio_channel this.
Proof.
  cbv zeta. apply run_calls_at_rest.
  apply init_at_rest. reflexivity.
Defined.
